(** * The eigenmode filter script of examples/02-HFSS/HFSS_eigenmode.py

    The script drives the HFSS eigenmode solver in a loop: every pass
    creates a setup whose minimum frequency is the frequency of the last
    mode of the previous pass, collects the modes the solver found, and
    keeps the ones whose quality factor exceeds a limit.

    Numbers are Python floats, that is IEEE binary64: they are modelled by
    Rocq's primitive [float], whose operations are the same binary64
    operations.  The integer literals of the script ([fmin = 1],
    [fmax = 2], [limit = 10]) are taken as the floats of the same value;
    Python compares an int with a float by value, so the comparisons
    agree. *)

From Stdlib Require Import ZArith List String Ascii Bool Lia.
From Stdlib Require Import DecimalString Floats.
From Stdlib Require DecimalPos DecimalZ.
Import ListNotations.

Local Open Scope string_scope.
Local Open Scope Z_scope.

(** A decimal literal stands for the nearest binary64 number, as in
    Python. *)
Set Warnings "-inexact-float".

(** ** Python exceptions and the error monad *)

(** The exceptions the statements of the script can raise by themselves:
    a missing dict key and a list index out of range. *)
Inductive exn : Type :=
| KeyError
| IndexError.

Inductive result (A : Type) : Type :=
| Ok (a : A)
| Raise (e : exn).

Arguments Ok {A} a.
Arguments Raise {A} e.

Definition bind {A B : Type} (m : result A) (k : A -> result B) : result B :=
  match m with
  | Ok a => k a
  | Raise e => Raise e
  end.

Notation "x <- m ;; k" := (bind m (fun x => k))
  (at level 61, m at next level, right associativity).

(** ** Python lists and dicts *)

(** [l[i]] for a Python list: a negative index counts from the end, an
    index outside the list raises [IndexError]. *)
Definition list_getitem {A : Type} (l : list A) (i : Z) : result A :=
  let n := Z.of_nat (List.length l) in
  let j := if i <? 0 then i + n else i in
  if (j <? 0) || (n <=? j) then Raise IndexError
  else match nth_error l (Z.to_nat j) with
       | Some a => Ok a
       | None => Raise IndexError
       end.

(** A dict with int keys.  Python dicts keep insertion order, and the
    script iterates over them, so a dict is the list of its items in
    insertion order. *)
Module Dict.

Definition t (V : Type) : Type := list (Z * V).

Definition empty {V : Type} : t V := [].

Definition len {V : Type} (d : t V) : Z := Z.of_nat (List.length d).

Fixpoint get {V : Type} (d : t V) (k : Z) : option V :=
  match d with
  | [] => None
  | (k', v) :: d' => if k' =? k then Some v else get d' k
  end.

(** [d[k]]: raises [KeyError] when [k] is not a key. *)
Definition getitem {V : Type} (d : t V) (k : Z) : result V :=
  match get d k with
  | Some v => Ok v
  | None => Raise KeyError
  end.

(** [d[k] = v]: an existing key keeps its place, a new key goes last. *)
Fixpoint setitem {V : Type} (d : t V) (k : Z) (v : V) : t V :=
  match d with
  | [] => [(k, v)]
  | (k', v') :: d' =>
      if k' =? k then (k, v) :: d' else (k', v') :: setitem d' k v
  end.

(** Iterating a dict yields its keys in insertion order. *)
Definition keys {V : Type} (d : t V) : list Z := map fst d.

Definition values {V : Type} (d : t V) : list V := map snd d.

End Dict.

(** The dict [{start: x0, start+1: x1, ...}], keys inserted in that order:
    the shape of every dict the script builds. *)
Fixpoint enumerate {V : Type} (start : Z) (l : list V) : Dict.t V :=
  match l with
  | [] => []
  | x :: l' => (start, x) :: enumerate (start + 1) l'
  end.

(** ** The order of binary64 floats *)

(** A finite binary64 number [m * 2^e] has [m < 2^53] and
    [-1074 <= e <= 971], so the numbers of one sign are ordered as the
    pairs [(e, m)]: a float has a position in the order of all floats. *)
Definition rank_bound : Z := 2047 * 2 ^ 53.

Definition rank_finite (m : positive) (e : Z) : Z := (e + 1075) * 2 ^ 53 + Zpos m.

(** The position of a number; zeros share 0, the infinities are the two
    ends. *)
Definition rank_sf (x : spec_float) : Z :=
  match x with
  | S754_nan => 0
  | S754_zero _ => 0
  | S754_infinity s => if s then - rank_bound else rank_bound
  | S754_finite s m e => if s then - rank_finite m e else rank_finite m e
  end.

Definition rank (x : float) : Z := rank_sf (Prim2SF x).

(** Not a NaN. *)
Definition is_number (x : spec_float) : bool :=
  match x with
  | S754_nan => false
  | _ => true
  end.

(** [str(n)] for an int. *)
Definition str_int (n : Z) : string := NilZero.string_of_int (Z.to_int n).

(** ** The solver seen from the script *)

(** The properties the script sets on the setup that [hfss.create_setup]
    returns. *)
Record Setup : Type := {
  setup_name : string;
  MinimumFrequency : string;
  NumModes : Z;
  ConvergeOnRealFreq : bool;
  MaximumPasses : Z;
  MinimumPasses : Z;
  MaxDeltaFreq : Z
}.

(** What [hfss.post] answers once a setup has been analyzed:
    [available_report_quantities(quantities_category="Eigen Q")],
    [available_report_quantities()], and, for an expression and a sweep
    name, the [data_real()] of [get_solution_data]. *)
Record Post : Type := {
  eigen_q_quantities : list string;
  eigen_mode_quantities : list string;
  data_real : string -> string -> list float
}.

(** HFSS is outside the repository.  It is deterministic in the setups
    created and analyzed so far (most recent first): that list is the
    state of the project. *)
Definition Hfss : Type := list Setup -> Post.

(** A mode as [find_resonance] stores it: the two-element list
    [[Q, frequency]], read with [[0]] and [[1]]. *)
Definition Mode : Type := (float * float)%type.

Definition q_of (m : Mode) : float := fst m.
Definition freq_of (m : Mode) : float := snd m.

(** The module-level variables the loop assigns, with the setups of the
    HFSS project. *)
Record State : Type := {
  next_fmin : float;
  setup_nr : Z;
  resonance : Dict.t Mode;
  project : list Setup
}.

(** The outcome of running the [while] loop for a bounded number of
    passes. *)
Inductive outcome : Type :=
| Finished (s : State)
| Raised (e : exn)
| Running (s : State).

(** ** Concrete solvers *)

(** A solver answer given as two tables: the Q expressions and the mode
    expressions, each with its series of values. *)
Fixpoint series (table : list (string * list float)) (e : string) : list float :=
  match table with
  | [] => []
  | (e', v) :: table' => if String.eqb e' e then v else series table' e
  end.

Definition post_of (qs modes : list (string * list float)) : Post :=
  {| eigen_q_quantities := map fst qs;
     eigen_mode_quantities := map fst modes;
     data_real := fun e _ => series (qs ++ modes)%list e |}.

(** Six modes at 1.1 ... 2.1 GHz with Q = 5, 12, 8, 15, 20, 3. *)
Definition six_modes : Post :=
  post_of
    [("Q(1)", [5%float]); ("Q(2)", [12%float]); ("Q(3)", [8%float]);
     ("Q(4)", [15%float]); ("Q(5)", [20%float]); ("Q(6)", [3%float])]
    [("Mode(1)", [1.1e9%float]); ("Mode(2)", [1.3e9%float]);
     ("Mode(3)", [1.5e9%float]); ("Mode(4)", [1.7e9%float]);
     ("Mode(5)", [1.9e9%float]); ("Mode(6)", [2.1e9%float])].

(** One mode with the given Q and frequency. *)
Definition one_mode (q f : float) : Post :=
  post_of [("Q(1)", [q])] [("Mode(1)", [f])].

(** Two modes, but one Q expression only. *)
Definition short_q : Post :=
  post_of [("Q(1)", [5%float])]
    [("Mode(1)", [1.1e9%float]); ("Mode(2)", [1.3e9%float])].

(** No mode at all. *)
Definition no_modes : Post := post_of [] [].

(** A solver that finds a mode at 1.5 GHz for the first setup and a mode
    at 2.5 GHz for every later one. *)
Definition two_steps : Hfss :=
  fun project =>
    match project with
    | [_] => one_mode 5 1.5e9
    | _ => one_mode 20 2.5e9
    end.

(** A solver that finds the same mode at 0.5 GHz whatever the setup. *)
Definition stuck : Hfss := fun _ => one_mode 5 0.5e9.

(** Two answers that read the same: the same expressions, and the same
    values for every expression and sweep. *)
Definition same_answers (p1 p2 : Post) : Prop :=
  eigen_q_quantities p1 = eigen_q_quantities p2 /\
  eigen_mode_quantities p1 = eigen_mode_quantities p2 /\
  forall e sweep, data_real p1 e sweep = data_real p2 e sweep.

(** A float formatter for the places where the text does not matter. *)
Definition no_str : float -> string := fun _ => "".

(** The first setup of the script for [num_modes = 6], written with
    [no_str], and the state after the one pass on [six_modes]. *)
Definition em_setup1 : Setup :=
  {| setup_name := "em_setup1";
     MinimumFrequency := " GHz";
     NumModes := 6;
     ConvergeOnRealFreq := true;
     MaximumPasses := 10;
     MinimumPasses := 3;
     MaxDeltaFreq := 5 |}.

Definition after_six_modes : State :=
  {| next_fmin := 2.1;
     setup_nr := 2;
     resonance := [(0, (12%float, 1.3e9%float)); (1, (15%float, 1.7e9%float));
                   (2, (20%float, 1.9e9%float))];
     project := [em_setup1] |}.


(** ** What a pass reads of an answer *)

(** Position [i] of an answer cannot be read: there is no [i]-th Q
    expression, or the series of the [i]-th Q expression or of the [i]-th
    mode expression is empty. *)
Definition lacking (post : Post) (sweep : string) (i : nat) : Prop :=
  nth_error (eigen_q_quantities post) i = None \/
  (exists q_name,
     nth_error (eigen_q_quantities post) i = Some q_name /\
     data_real post q_name sweep = []) \/
  (exists mode_name,
     nth_error (eigen_mode_quantities post) i = Some mode_name /\
     data_real post mode_name sweep = []).

(** Two answers with the same mode expressions, the same Q expressions
    at the positions of the modes, and, for these expressions and the given
    sweep, series that start with the same value. *)
Definition same_first_values (p1 p2 : Post) (sweep : string) : Prop :=
  eigen_mode_quantities p1 = eigen_mode_quantities p2 /\
  firstn (List.length (eigen_mode_quantities p1)) (eigen_q_quantities p1)
  = firstn (List.length (eigen_mode_quantities p1)) (eigen_q_quantities p2) /\
  forall e,
    In e (eigen_mode_quantities p1) \/
    In e (firstn (List.length (eigen_mode_quantities p1)) (eigen_q_quantities p1)) ->
    hd_error (data_real p1 e sweep) = hd_error (data_real p2 e sweep).

(** The six modes again, from a solver that lists one more Q expression,
    gives every series a second value, and has nothing for any sweep but
    the last adaptive pass of the newest setup. *)
Definition six_modes_padded : Hfss :=
  fun project =>
    let newest := match project with
                  | setup :: _ => setup_name setup
                  | [] => ""
                  end in
    {| eigen_q_quantities := (eigen_q_quantities six_modes ++ ["Q(7)"])%list;
       eigen_mode_quantities := eigen_mode_quantities six_modes;
       data_real := fun e sweep =>
         if String.eqb sweep (newest ++ " : LastAdaptive")
         then match data_real six_modes e sweep with
              | [] => []
              | v :: _ => [v; 0%float]
              end
         else [] |}.

(** A solver whose only mode has a frequency that is not a number. *)
Definition nan_mode : Hfss := fun _ => one_mode 20 nan.

(** [int(s)] for the decimal writing of an int. *)
Definition int_str (s : string) : option Z :=
  option_map Z.of_int (NilZero.int_of_string s).

(** ** The package initialisation

    [src/ansys/aedt/core/__init__.py] warns, when the package is
    imported, that an old Python is deprecated. *)
Module Init.

(** [sys.version_info[:2]]: the major and the minor version. *)
Definition version : Type := (Z * Z)%type.

Definition LATEST_DEPRECATED_PYTHON_VERSION : version := (3, 7).

(** [a <= b] for two pairs of ints, as Python compares sequences: the
    first position where they differ decides, and equal pairs are [<=]. *)
Definition tuple_le (a b : version) : bool :=
  if negb (fst a =? fst b) then fst a <=? fst b
  else if negb (snd a =? snd b) then snd a <=? snd b
  else true.

(** [warnings.showwarning]: the function found there when the package
    is imported, or the [custom_show_warning] of [deprecation_warning]. *)
Inductive hook (H : Type) : Type :=
| existing (h : H)
| custom_show_warning.

Arguments existing {H} h.
Arguments custom_show_warning {H}.

(** What [warnings.warn] does with a warning is decided by the warning
    filters of the interpreter: drop it, show it through
    [warnings.showwarning], or raise it as an exception. *)
Inductive action : Type :=
| ignore
| show
| error.

(** The part of the interpreter the function touches: the hook and the
    lines printed on the standard output. *)
Record runtime (H : Type) : Type := {
  showwarning : hook H;
  stdout : list string
}.

Arguments showwarning {H} r.
Arguments stdout {H} r.

(** The function returns or a warning is raised out of it; both leave a
    runtime. *)
Inductive ended (H : Type) : Type :=
| Returned (r : runtime H)
| Warned (category message : string) (r : runtime H).

Arguments Returned {H} r.
Arguments Warned {H} category message r.

Section Warnings.

Variable H : Type.

(** What a function found in [warnings.showwarning] does when it is
    called with a message and the name of a category. *)
Variable call_existing : H -> string -> string -> runtime H -> runtime H.

(** [print("{}: {}".format(category.__name__, message))] *)
Definition print_warning (message category : string) (r : runtime H) : runtime H :=
  {| showwarning := showwarning r;
     stdout := (stdout r ++ [(category ++ ": " ++ message)%string])%list |}.

(** [warnings.warn(message, category)] under the action the filters
    give to the warning. *)
Definition warn (act : action) (message category : string) (r : runtime H)
    : ended H :=
  match act with
  | ignore => Returned r
  | error => Warned category message r
  | show =>
      match showwarning r with
      | existing h => Returned (call_existing h message category r)
      | custom_show_warning => Returned (print_warning message category r)
      end
  end.

Definition deprecation_message (current : version) : string :=
  "Current python version (" ++ (str_int (fst current) ++ "." ++ str_int (snd current))
  ++ ") is deprecated in PyAEDT. We encourage you "
  ++ "to upgrade to the latest version to benefit from the latest features "
  ++ "and security updates.".

(** [deprecation_warning()] *)
Definition deprecation_warning (version_info : version) (act : action)
    (r : runtime H) : ended H :=
  let existing_showwarning := showwarning r in
  let r1 := {| showwarning := custom_show_warning; stdout := stdout r |} in
  let current_version := version_info in
  if tuple_le current_version LATEST_DEPRECATED_PYTHON_VERSION then
    match warn act (deprecation_message current_version)
            "PendingDeprecationWarning" r1 with
    | Returned r2 =>
        Returned {| showwarning := existing_showwarning; stdout := stdout r2 |}
    | Warned category message r2 => Warned category message r2
    end
  else Returned {| showwarning := existing_showwarning; stdout := stdout r1 |}.

End Warnings.

End Init.
Section Script.

(** The solver, the input parameters of the script, and the two float
    formatters of the Python runtime: [str] and the format [:.5]. *)
Variable hfss : Hfss.
Variable num_modes : Z.
Variable fmin fmax limit : float.
Variable str_float : float -> string.
Variable format_5 : float -> string.

(** The setup that [find_resonance] creates. *)
Definition make_setup (next_fmin : float) (setup_nr : Z) : Setup :=
  {| setup_name := "em_setup" ++ str_int setup_nr;
     MinimumFrequency := str_float next_fmin ++ " GHz";
     NumModes := num_modes;
     ConvergeOnRealFreq := true;
     MaximumPasses := 10;
     MinimumPasses := 3;
     MaxDeltaFreq := 5 |}.

(** The [for i in eigen_mode] loop of [find_resonance]: [todo] is what
    is left of [eigen_mode] to iterate over. *)
Fixpoint collect (post : Post) (sweep : string) (todo : list string)
    (cont : Z) (data : Dict.t Mode) : result (Dict.t Mode) :=
  match todo with
  | [] => Ok data
  | _ :: todo' =>
      q_name <- list_getitem (eigen_q_quantities post) cont ;;
      let eigen_q_value := data_real post q_name sweep in
      mode_name <- list_getitem (eigen_mode_quantities post) cont ;;
      let eigen_mode_value := data_real post mode_name sweep in
      q <- list_getitem eigen_q_value 0 ;;
      f <- list_getitem eigen_mode_value 0 ;;
      collect post sweep todo' (cont + 1) (Dict.setitem data cont (q, f))
  end.

(** [find_resonance()]: the project after the setup was created and
    analyzed, and the dict of modes or the exception. *)
Definition find_resonance (s : State) : list Setup * result (Dict.t Mode) :=
  let setup := make_setup (next_fmin s) (setup_nr s) in
  let project' := setup :: project s in
  let post := hfss project' in
  (project',
   collect post (setup_name setup ++ " : LastAdaptive")
     (eigen_mode_quantities post) 0 Dict.empty).

(** The [for q in output] loop: [todo] is what is left of the keys. *)
Fixpoint keep_resonances (output : Dict.t Mode) (todo : list Z)
    (resonance : Dict.t Mode) (cont_res : Z) : result (Dict.t Mode) :=
  match todo with
  | [] => Ok resonance
  | q :: todo' =>
      m <- Dict.getitem output q ;;
      if (limit <? q_of m)%float then
        m' <- Dict.getitem output q ;;
        keep_resonances output todo' (Dict.setitem resonance cont_res m')
          (cont_res + 1)
      else keep_resonances output todo' resonance cont_res
  end.

(** One pass through the body of the [while] loop. *)
Definition loop_body (s : State) : result State :=
  let (project', r) := find_resonance s in
  output <- r ;;
  last <- Dict.getitem output (Dict.len output - 1) ;;
  let next_fmin' := (freq_of last / 1e9)%float in
  let setup_nr' := setup_nr s + 1 in
  let cont_res := Dict.len (resonance s) in
  resonance' <- keep_resonances output (Dict.keys output) (resonance s) cont_res ;;
  Ok {| next_fmin := next_fmin';
        setup_nr := setup_nr';
        resonance := resonance';
        project := project' |}.

(** [while next_fmin < fmax: ...], for at most [fuel] passes. *)
Fixpoint while_loop (fuel : nat) (s : State) : outcome :=
  if (next_fmin s <? fmax)%float then
    match fuel with
    | O => Running s
    | S fuel' =>
        match loop_body s with
        | Ok s' => while_loop fuel' s'
        | Raise e => Raised e
        end
    end
  else Finished s.

(** The variables as the script initialises them; the project that is
    opened has no eigenmode setup. *)
Definition initial : State :=
  {| next_fmin := fmin; setup_nr := 1; resonance := Dict.empty; project := [] |}.

(** The list comprehension after the loop. *)
Fixpoint format_frequencies (resonance : Dict.t Mode) (todo : list Z)
    : result (list string) :=
  match todo with
  | [] => Ok []
  | i :: todo' =>
      m <- Dict.getitem resonance i ;;
      rest <- format_frequencies resonance todo' ;;
      Ok ((format_5 (freq_of m / 1e9)%float ++ " GHz") :: rest)
  end.

Definition resonance_frequencies (s : State) : result (list string) :=
  format_frequencies (resonance s) (Dict.keys (resonance s)).

(** *** Notions the properties are stated with *)

(** The condition of the [while] loop. *)
Definition scanning (s : State) : bool := (next_fmin s <? fmax)%float.

(** The answers of the solver during the pass that starts in [s], and
    the sweep name the pass asks them for. *)
Definition post_at (s : State) : Post :=
  hfss (make_setup (next_fmin s) (setup_nr s) :: project s).

Definition sweep_at (s : State) : string :=
  setup_name (make_setup (next_fmin s) (setup_nr s)) ++ " : LastAdaptive".

(** The mode at position [i] of an answer: the first value of the [i]-th
    Q expression with the first value of the [i]-th mode expression. *)
Definition mode_at (post : Post) (sweep : string) (i : nat) : option Mode :=
  match nth_error (eigen_q_quantities post) i,
        nth_error (eigen_mode_quantities post) i with
  | Some q_name, Some mode_name =>
      match data_real post q_name sweep, data_real post mode_name sweep with
      | q :: _, f :: _ => Some (q, f)
      | _, _ => None
      end
  | _, _ => None
  end.

(** The modes at positions [i], [i+1], ..., [i+n-1], when all exist. *)
Fixpoint read_modes (post : Post) (sweep : string) (i n : nat) : option (list Mode) :=
  match n with
  | O => Some []
  | S n' =>
      match mode_at post sweep i with
      | Some m =>
          match read_modes post sweep (S i) n' with
          | Some ms => Some (m :: ms)
          | None => None
          end
      | None => None
      end
  end.

(** The modes that the pass from [s] reads, when none is missing. *)
Definition modes_at (s : State) : option (list Mode) :=
  read_modes (post_at s) (sweep_at s) 0
    (List.length (eigen_mode_quantities (post_at s))).

(** The filter on the quality factor. *)
Definition physical (m : Mode) : bool := (limit <? q_of m)%float.

(** What the [for q in output] loop does to [resonance] when it meets the
    modes [ms] in turn. *)
Fixpoint keep_modes (ms : list Mode) (resonance : Dict.t Mode) (cont_res : Z)
    : Dict.t Mode :=
  match ms with
  | [] => resonance
  | m :: ms' =>
      if physical m then keep_modes ms' (Dict.setitem resonance cont_res m) (cont_res + 1)
      else keep_modes ms' resonance cont_res
  end.

(** The keys of a dict of the script are 0, 1, 2, ... in this order. *)
Definition dense (d : Dict.t Mode) : Prop := d = enumerate 0 (Dict.values d).

(** The modes a pass gets from [find_resonance], in the order of the
    dict, and the frequency (in Hz) of the last of them. *)
Definition returned_modes (s : State) : option (list Mode) :=
  match snd (find_resonance s) with
  | Ok output => Some (Dict.values output)
  | Raise _ => None
  end.

Definition last_frequency (s : State) : option float :=
  match returned_modes s with
  | Some (m :: ms) => Some (freq_of (last ms m))
  | _ => None
  end.

(** The state after exactly [k] passes of the loop from [s]: each pass
    is entered with the loop condition true and ends without exception. *)
Fixpoint passes (k : nat) (s : State) : option State :=
  match k with
  | O => Some s
  | S k' =>
      if scanning s then
        match loop_body s with
        | Ok s' => passes k' s'
        | Raise _ => None
        end
      else None
  end.

(** All the modes the first [k] passes from [s] got, in the order met. *)
Fixpoint observed (k : nat) (s : State) : list Mode :=
  match k with
  | O => []
  | S k' =>
      if scanning s then
        match returned_modes s, loop_body s with
        | Some ms, Ok s' => (ms ++ observed k' s')%list
        | _, _ => []
        end
      else []
  end.

(** ** Properties *)

(** *** The order of floats *)

Lemma digits2_pos_size (p : positive) : digits2_pos p = Pos.size p.
Proof. induction p as [p IH | p IH |]; simpl; now rewrite ?IH. Qed.

Lemma bounded_finite (m : positive) (e : Z) :
  bounded prec emax m e = true -> Zpos m < 2 ^ 53 /\ -1074 <= e <= 971.
Proof.
  unfold bounded, canonical_mantissa, fexp, SpecFloat.emin, prec, emax.
  intros H. apply andb_true_iff in H. destruct H as [Hc He].
  apply Z.eqb_eq in Hc. apply Z.leb_le in He.
  rewrite digits2_pos_size in Hc.
  assert (Hs : Z.pos (Pos.size m) <= 53) by lia.
  split; [| lia].
  pose proof (Pos.size_gt m) as Hgt.
  apply Pos2Z.pos_lt_pos in Hgt. rewrite Pos2Z.inj_pow in Hgt.
  eapply Z.lt_le_trans; [exact Hgt |].
  apply Z.pow_le_mono_r; lia.
Qed.

Lemma rank_finite_bounds (m : positive) (e : Z) :
  bounded prec emax m e = true -> 0 < rank_finite m e < rank_bound.
Proof.
  intros H. apply bounded_finite in H. unfold rank_finite, rank_bound.
  assert (0 < 2 ^ 53) by lia. nia.
Qed.

Lemma rank_finite_compare (mx my : positive) (ex ey : Z) :
  bounded prec emax mx ex = true -> bounded prec emax my ey = true ->
  (rank_finite mx ex ?= rank_finite my ey) =
  match ex ?= ey with
  | Eq => Pos.compare_cont Eq mx my
  | Lt => Lt
  | Gt => Gt
  end.
Proof.
  intros Bx By. apply bounded_finite in Bx, By.
  unfold rank_finite. assert (0 < 2 ^ 53) by lia.
  destruct (Z.compare_spec ex ey) as [E | L | G].
  - subst ey. change (Pos.compare_cont Eq mx my) with (Z.pos mx ?= Z.pos my).
    destruct (Z.compare_spec (Z.pos mx) (Z.pos my)) as [E | L | G].
    + apply Z.compare_eq_iff. lia.
    + apply Z.compare_lt_iff. lia.
    + apply Z.compare_gt_iff. lia.
  - apply Z.compare_lt_iff. nia.
  - apply Z.compare_gt_iff. nia.
Qed.

Lemma SFcompare_rank (x y : spec_float) :
  valid_binary x = true -> valid_binary y = true ->
  is_number x = true -> is_number y = true ->
  SFcompare x y = Some (rank_sf x ?= rank_sf y).
Proof.
  intros Vx Vy Nx Ny.
  destruct x as [sx | sx | | sx mx ex]; try discriminate;
  destruct y as [sy | sy | | sy my ey]; try discriminate;
  cbv [SFcompare rank_sf valid_binary] in *.
  all: try (pose proof (rank_finite_bounds _ _ Vx) as Rx).
  all: try (pose proof (rank_finite_bounds _ _ Vy) as Ry).
  all: try (destruct sx); try (destruct sy); f_equal; symmetry.
  all: try reflexivity.
  all: try (apply Z.compare_lt_iff; unfold rank_bound in *; lia).
  all: try (apply Z.compare_gt_iff; unfold rank_bound in *; lia).
  - rewrite Z.compare_opp. rewrite (rank_finite_compare my mx ey ex Vy Vx).
    rewrite (Z.compare_antisym ey ex).
    destruct (ey ?= ex); simpl; try reflexivity.
    rewrite Pos.compare_cont_antisym. reflexivity.
  - apply rank_finite_compare; assumption.
Qed.

Lemma Prim2SF_nan (x : float) : is_number (Prim2SF x) = negb (is_nan x).
Proof.
  unfold Prim2SF. destruct (is_nan x); [reflexivity |].
  destruct (is_zero x); [reflexivity |].
  destruct (is_infinity x); [reflexivity |].
  destruct (Z.frexp x) as [r e].
  destruct (shr_fexp _ _ _ _ _) as [shr e'].
  destruct (shr_m shr); reflexivity.
Qed.

Lemma compare_rank (x y : float) :
  is_nan x = false -> is_nan y = false ->
  SFcompare (Prim2SF x) (Prim2SF y) = Some (rank x ?= rank y).
Proof.
  intros Hx Hy. apply SFcompare_rank.
  - apply Prim2SF_valid.
  - apply Prim2SF_valid.
  - now rewrite Prim2SF_nan, Hx.
  - now rewrite Prim2SF_nan, Hy.
Qed.

Lemma compare_nan (x y : float) :
  is_nan x = true \/ is_nan y = true ->
  SFcompare (Prim2SF x) (Prim2SF y) = None.
Proof.
  intros H.
  assert (E : is_number (Prim2SF x) = false \/ is_number (Prim2SF y) = false).
  { rewrite !Prim2SF_nan. destruct H as [H | H]; rewrite H; auto. }
  destruct (Prim2SF x), (Prim2SF y); simpl in *; destruct E; try discriminate; reflexivity.
Qed.

Lemma ltb_rank (x y : float) :
  (x <? y)%float = true <-> is_nan x = false /\ is_nan y = false /\ rank x < rank y.
Proof.
  rewrite ltb_spec. unfold SFltb.
  destruct (is_nan x) eqn:Hx.
  { rewrite compare_nan by auto. split; [discriminate | intros [? _]; discriminate]. }
  destruct (is_nan y) eqn:Hy.
  { rewrite compare_nan by auto. split; [discriminate | intros [_ [? _]]; discriminate]. }
  rewrite compare_rank by assumption.
  destruct (Z.compare_spec (rank x) (rank y)); split; try discriminate; try lia; auto.
Qed.

Lemma leb_rank (x y : float) :
  (x <=? y)%float = true <-> is_nan x = false /\ is_nan y = false /\ rank x <= rank y.
Proof.
  rewrite leb_spec. unfold SFleb.
  destruct (is_nan x) eqn:Hx.
  { rewrite compare_nan by auto. split; [discriminate | intros [? _]; discriminate]. }
  destruct (is_nan y) eqn:Hy.
  { rewrite compare_nan by auto. split; [discriminate | intros [_ [? _]]; discriminate]. }
  rewrite compare_rank by assumption.
  destruct (Z.compare_spec (rank x) (rank y)); split; try discriminate; try lia; auto.
Qed.

Lemma rank_range (x : float) : - rank_bound <= rank x <= rank_bound.
Proof.
  unfold rank. pose proof (Prim2SF_valid x) as V.
  destruct (Prim2SF x) as [s | s | | s m e]; cbv [rank_sf valid_binary] in *.
  - unfold rank_bound; lia.
  - destruct s; unfold rank_bound; lia.
  - unfold rank_bound; lia.
  - apply rank_finite_bounds in V. destruct s; lia.
Qed.

Lemma leb_ltb_trans (x y z : float) :
  (x <=? y)%float = true -> (y <? z)%float = true -> (x <? z)%float = true.
Proof.
  intros Hxy Hyz. apply leb_rank in Hxy. apply ltb_rank in Hyz.
  destruct Hxy as (Hx & _ & Hxy). destruct Hyz as (_ & Hz & Hyz).
  apply ltb_rank. split; [exact Hx |]. split; [exact Hz | lia].
Qed.

Lemma leb_trans (x y z : float) :
  (x <=? y)%float = true -> (y <=? z)%float = true -> (x <=? z)%float = true.
Proof.
  intros Hxy Hyz. apply leb_rank in Hxy, Hyz.
  destruct Hxy as (Hx & _ & Hxy). destruct Hyz as (_ & Hz & Hyz).
  apply leb_rank. split; [exact Hx |]. split; [exact Hz | lia].
Qed.

Lemma leb_refl_below (x y : float) :
  (x <? y)%float = true -> (x <=? x)%float = true.
Proof.
  intros H. apply ltb_rank in H. destruct H as (Hx & _ & _).
  apply leb_rank. split; [exact Hx |]. split; [exact Hx | lia].
Qed.

Lemma shr_1_nonneg (mrs : shr_record) : 0 <= shr_m mrs -> 0 <= shr_m (shr_1 mrs).
Proof.
  destruct mrs as [m r s]. simpl. intros H.
  destruct m as [| p | p]; [simpl; lia | | lia].
  destruct p; simpl; lia.
Qed.

Lemma iter_pos_invariant {A : Type} (P : A -> Prop) (f : A -> A) :
  (forall a, P a -> P (f a)) -> forall p a, P a -> P (iter_pos f p a).
Proof.
  intros Hf. induction p as [p IH | p IH |]; intros a Ha; simpl; auto.
Qed.

Lemma shr_fexp_nonneg (m e : Z) (l : location) :
  0 <= m -> 0 <= shr_m (fst (shr_fexp prec emax m e l)).
Proof.
  intros Hm. unfold shr_fexp, shr.
  assert (H0 : 0 <= shr_m (shr_record_of_loc m l)).
  { destruct l as [| c]; [| destruct c]; exact Hm. }
  destruct (fexp prec emax (Zdigits2 m + e) - e) as [| p | p]; simpl; auto.
  apply (iter_pos_invariant (fun mrs => 0 <= shr_m mrs)); auto using shr_1_nonneg.
Qed.

Lemma round_nearest_even_nonneg (m : Z) (l : location) :
  0 <= m -> 0 <= round_nearest_even m l.
Proof.
  intros Hm. unfold round_nearest_even.
  destruct l as [| c]; [| destruct c]; try destruct (Z.even m); lia.
Qed.

Lemma binary_round_aux_number (sx : bool) (mx ex : Z) (lx : location) :
  0 <= mx -> is_number (binary_round_aux prec emax sx mx ex lx) = true.
Proof.
  intros Hm. unfold binary_round_aux.
  pose proof (shr_fexp_nonneg mx ex lx Hm) as H1.
  destruct (shr_fexp prec emax mx ex lx) as [mrs' e']. simpl in H1.
  pose proof (shr_fexp_nonneg _ e' loc_Exact
                (round_nearest_even_nonneg _ (loc_of_shr_record mrs') H1)) as H2.
  destruct (shr_fexp prec emax _ e' loc_Exact) as [mrs'' e'']. simpl in H2.
  destruct (shr_m mrs'') as [| p | p]; [reflexivity | | lia].
  destruct (e'' <=? emax - prec); reflexivity.
Qed.

Lemma SFdiv_finite_number (x : spec_float) (s : bool) (m : positive) (e : Z) :
  is_number x = true -> is_number (SF64div x (S754_finite s m e)) = true.
Proof.
  intros Hx. destruct x as [sx | sx | | sx mx ex]; try discriminate; try reflexivity.
  unfold SF64div, SFdiv, SFdiv_core_binary.
  match goal with |- context [Z.div_eucl ?a ?b] =>
    pose proof (Z.div_pos a b) as Hq; unfold Z.div in Hq;
    assert (Ha : 0 <= a); [| destruct (Z.div_eucl a b) as [q r] ]
  end.
  - match goal with |- 0 <= match ?z with _ => _ end => destruct z end;
      try lia. apply Z.shiftl_nonneg. lia.
  - apply binary_round_aux_number. apply Hq; lia.
Qed.

Lemma div_1e9_number (x : float) : is_nan x = false -> is_nan (x / 1e9)%float = false.
Proof.
  intros Hx.
  assert (H : is_number (Prim2SF (x / 1e9)%float) = true).
  { rewrite div_spec.
    replace (Prim2SF 1e9%float) with (S754_finite false 8388608000000000 (-23))
      by (vm_compute; reflexivity).
    apply SFdiv_finite_number. now rewrite Prim2SF_nan, Hx. }
  rewrite Prim2SF_nan in H. now destruct (is_nan (x / 1e9)%float).
Qed.

(** *** Lists and dicts *)

Lemma list_getitem_nat {A : Type} (l : list A) (i : nat) :
  list_getitem l (Z.of_nat i) =
  match nth_error l i with
  | Some a => Ok a
  | None => Raise IndexError
  end.
Proof.
  unfold list_getitem.
  destruct (Z.ltb_spec (Z.of_nat i) 0) as [Hneg | _]; [lia |].
  destruct (Z.ltb_spec (Z.of_nat i) 0) as [Hneg | _]; [lia |].
  destruct (Z.leb_spec (Z.of_nat (List.length l)) (Z.of_nat i)) as [Hout | Hin]; simpl.
  - assert (E : nth_error l i = None) by (apply nth_error_None; lia).
    now rewrite E.
  - now rewrite Nat2Z.id.
Qed.

Lemma list_getitem_0 {A : Type} (l : list A) :
  list_getitem l 0 =
  match l with
  | [] => Raise IndexError
  | a :: _ => Ok a
  end.
Proof.
  change (list_getitem l 0) with (list_getitem l (Z.of_nat 0)).
  rewrite list_getitem_nat. now destruct l.
Qed.

Lemma last_cons {A : Type} (l : list A) (x d : A) : last (x :: l) d = last l x.
Proof.
  revert x d. induction l as [| y l IH]; intros x d; [reflexivity |].
  change (last (x :: y :: l) d) with (last (y :: l) d). now rewrite !IH.
Qed.

Lemma nth_error_last {A : Type} (l : list A) (a : A) :
  nth_error (a :: l) (List.length l) = Some (last l a).
Proof.
  revert a. induction l as [| b l IH]; intros a; [reflexivity |].
  change (nth_error (b :: l) (List.length l) = Some (last (b :: l) a)).
  now rewrite IH, last_cons.
Qed.

Lemma values_enumerate {V : Type} (l : list V) (a : Z) :
  Dict.values (enumerate a l) = l.
Proof.
  revert a. induction l as [| x l IH]; intros a; simpl; [reflexivity |].
  f_equal. apply IH.
Qed.

Lemma len_enumerate {V : Type} (l : list V) (a : Z) :
  Dict.len (enumerate a l) = Z.of_nat (List.length l).
Proof.
  unfold Dict.len. f_equal.
  revert a. induction l as [| x l IH]; intros a; simpl; [reflexivity |].
  f_equal. apply IH.
Qed.

Lemma get_enumerate {V : Type} (l : list V) (a : Z) (i : nat) :
  Dict.get (enumerate a l) (a + Z.of_nat i) = nth_error l i.
Proof.
  revert a i. induction l as [| x l IH]; intros a i.
  - now destruct i.
  - cbn [enumerate Dict.get].
    destruct (Z.eqb_spec a (a + Z.of_nat i)) as [E | N].
    + assert (i = O) by lia. now subst i.
    + destruct i as [| i]; [lia |]. cbn [nth_error].
      replace (a + Z.of_nat (S i)) with (a + 1 + Z.of_nat i) by lia.
      apply IH.
Qed.

Lemma in_enumerate_get {V : Type} (l : list V) (a k : Z) (v : V) :
  In (k, v) (enumerate a l) -> a <= k /\ Dict.get (enumerate a l) k = Some v.
Proof.
  revert a. induction l as [| x l IH]; intros a Hin; simpl in *; [contradiction |].
  destruct Hin as [E | Hin].
  - injection E as -> ->. rewrite Z.eqb_refl. split; [lia | reflexivity].
  - apply IH in Hin. destruct Hin as [Hle Hget].
    destruct (Z.eqb_spec a k); [lia |]. split; [lia | exact Hget].
Qed.

Lemma setitem_enumerate {V : Type} (l : list V) (a : Z) (v : V) :
  Dict.setitem (enumerate a l) (a + Z.of_nat (List.length l)) v
  = enumerate a (l ++ [v])%list.
Proof.
  revert a. induction l as [| x l IH]; intros a.
  - cbn. now rewrite Z.add_0_r.
  - cbn [enumerate Dict.setitem List.length app].
    destruct (Z.eqb_spec a (a + Z.of_nat (S (List.length l)))); [lia |].
    f_equal.
    replace (a + Z.of_nat (S (List.length l)))
      with (a + 1 + Z.of_nat (List.length l)) by lia.
    apply IH.
Qed.

Lemma setitem_enumerate_0 {V : Type} (l : list V) (v : V) :
  Dict.setitem (enumerate 0 l) (Z.of_nat (List.length l)) v
  = enumerate 0 (l ++ [v])%list.
Proof. exact (setitem_enumerate l 0 v). Qed.

Lemma get_enumerate_0 {V : Type} (l : list V) (i : nat) :
  Dict.get (enumerate 0 l) (Z.of_nat i) = nth_error l i.
Proof. exact (get_enumerate l 0 i). Qed.

(** *** The loops of the script *)

(** [collect], started on a dict of the modes [ms] read so far, reads the
    remaining positions or stops at the first that is missing. *)
Lemma collect_read (post : Post) (sweep : string) (todo : list string) :
  forall ms : list Mode,
  collect post sweep todo (Z.of_nat (List.length ms)) (enumerate 0 ms) =
  match read_modes post sweep (List.length ms) (List.length todo) with
  | Some ms' => Ok (enumerate 0 (ms ++ ms')%list)
  | None => Raise IndexError
  end.
Proof.
  induction todo as [| name todo IH]; intros ms; simpl.
  - now rewrite app_nil_r.
  - rewrite !list_getitem_nat. unfold mode_at.
    destruct (nth_error (eigen_q_quantities post) (List.length ms)) as [q_name |];
      [| reflexivity].
    destruct (nth_error (eigen_mode_quantities post) (List.length ms)) as [mode_name |];
      [| reflexivity].
    simpl. rewrite !list_getitem_0.
    destruct (data_real post q_name sweep) as [| q qs]; [reflexivity |].
    destruct (data_real post mode_name sweep) as [| f fs]; [reflexivity |].
    simpl.
    rewrite setitem_enumerate_0.
    replace (Z.of_nat (List.length ms) + 1)
      with (Z.of_nat (List.length (ms ++ [(q, f)])%list))
      by (rewrite length_app; simpl; lia).
    rewrite IH, length_app. cbn [List.length]. rewrite Nat.add_1_r.
    destruct (read_modes post sweep (S (List.length ms)) (List.length todo)) as [ms' |];
      [| reflexivity].
    now rewrite <- app_assoc.
Qed.

Lemma find_resonance_read (s : State) :
  find_resonance s =
  (make_setup (next_fmin s) (setup_nr s) :: project s,
   match modes_at s with
   | Some ms => Ok (enumerate 0 ms)
   | None => Raise IndexError
   end).
Proof.
  unfold find_resonance, modes_at. f_equal.
  apply (collect_read _ _ _ []).
Qed.

Lemma keep_resonances_keep (output : Dict.t Mode) (items : list (Z * Mode)) :
  (forall q m, In (q, m) items -> Dict.get output q = Some m) ->
  forall resonance cont_res,
  keep_resonances output (map fst items) resonance cont_res
  = Ok (keep_modes (map snd items) resonance cont_res).
Proof.
  induction items as [| [q m] items IH]; intros Hget res c; simpl; [reflexivity |].
  unfold Dict.getitem. rewrite (Hget q m) by (left; reflexivity). simpl.
  unfold physical.
  destruct (limit <? q_of m)%float; simpl; apply IH;
    intros q' m' Hin; apply Hget; right; exact Hin.
Qed.

Lemma keep_resonances_enumerate (ms : list Mode) (res : Dict.t Mode) (c : Z) :
  keep_resonances (enumerate 0 ms) (Dict.keys (enumerate 0 ms)) res c
  = Ok (keep_modes ms res c).
Proof.
  unfold Dict.keys. rewrite keep_resonances_keep.
  - now rewrite (values_enumerate ms 0 : map snd (enumerate 0 ms) = ms).
  - intros q m Hin. now apply in_enumerate_get in Hin.
Qed.

Lemma keep_modes_enumerate (ms rs : list Mode) :
  keep_modes ms (enumerate 0 rs) (Z.of_nat (List.length rs))
  = enumerate 0 (rs ++ filter physical ms)%list.
Proof.
  revert rs. induction ms as [| m ms IH]; intros rs; simpl.
  - now rewrite app_nil_r.
  - destruct (physical m); [| apply IH].
    rewrite setitem_enumerate_0.
    replace (Z.of_nat (List.length rs) + 1)
      with (Z.of_nat (List.length (rs ++ [m])%list))
      by (rewrite length_app; simpl; lia).
    rewrite IH. now rewrite <- app_assoc.
Qed.

(** One pass, in one equation. *)
Lemma loop_body_read (s : State) :
  loop_body s =
  match modes_at s with
  | None => Raise IndexError
  | Some [] => Raise KeyError
  | Some (m :: ms) =>
      Ok {| next_fmin := (freq_of (last ms m) / 1e9)%float;
            setup_nr := setup_nr s + 1;
            resonance := keep_modes (m :: ms) (resonance s) (Dict.len (resonance s));
            project := make_setup (next_fmin s) (setup_nr s) :: project s |}
  end.
Proof.
  unfold loop_body. rewrite find_resonance_read.
  destruct (modes_at s) as [[| m ms] |]; [reflexivity | | reflexivity].
  cbn [bind]. unfold Dict.getitem.
  rewrite len_enumerate.
  replace (Z.of_nat (List.length (m :: ms)) - 1) with (Z.of_nat (List.length ms))
    by (cbn [List.length]; lia).
  rewrite get_enumerate_0, nth_error_last. cbn [bind].
  rewrite keep_resonances_enumerate. reflexivity.
Qed.

Lemma mode_at_some (post : Post) (sweep : string) (i : nat) (m : Mode) :
  mode_at post sweep i = Some m <->
  exists q_name mode_name,
    nth_error (eigen_q_quantities post) i = Some q_name /\
    nth_error (eigen_mode_quantities post) i = Some mode_name /\
    list_getitem (data_real post q_name sweep) 0 = Ok (q_of m) /\
    list_getitem (data_real post mode_name sweep) 0 = Ok (freq_of m).
Proof.
  unfold mode_at. split.
  - destruct (nth_error (eigen_q_quantities post) i) as [q_name |]; [| discriminate].
    destruct (nth_error (eigen_mode_quantities post) i) as [mode_name |]; [| discriminate].
    intros H. exists q_name, mode_name. rewrite !list_getitem_0.
    destruct (data_real post q_name sweep) as [| q qs]; [discriminate |].
    destruct (data_real post mode_name sweep) as [| f fs]; [discriminate |].
    injection H as <-. auto.
  - intros (q_name & mode_name & -> & -> & Hq & Hf).
    rewrite list_getitem_0 in Hq, Hf.
    destruct (data_real post q_name sweep) as [| q qs]; [discriminate |].
    destruct (data_real post mode_name sweep) as [| f fs]; [discriminate |].
    destruct m as [mq mf]. unfold q_of, freq_of in *. simpl in *.
    injection Hq as ->. injection Hf as ->. reflexivity.
Qed.

Lemma read_modes_some (post : Post) (sweep : string) (n : nat) :
  forall (i : nat) (ms : list Mode),
  read_modes post sweep i n = Some ms ->
  List.length ms = n /\
  forall j, (j < n)%nat -> mode_at post sweep (i + j) = nth_error ms j.
Proof.
  induction n as [| n IH]; intros i ms H; simpl in H.
  - injection H as <-. split; [reflexivity | intros j Hj; lia].
  - destruct (mode_at post sweep i) as [m |] eqn:Hm; [| discriminate].
    destruct (read_modes post sweep (S i) n) as [ms' |] eqn:Hr; [| discriminate].
    injection H as <-. apply IH in Hr. destruct Hr as [Hlen Hnth].
    split; [simpl; now rewrite Hlen |].
    intros [| j] Hj.
    + now rewrite Nat.add_0_r.
    + replace (i + S j)%nat with (S i + j)%nat by lia. apply Hnth. lia.
Qed.

Lemma read_modes_none (post : Post) (sweep : string) (n : nat) :
  forall i j : nat,
  (j < n)%nat -> mode_at post sweep (i + j) = None ->
  read_modes post sweep i n = None.
Proof.
  induction n as [| n IH]; intros i j Hj Hm; [lia |]. simpl.
  destruct j as [| j].
  - rewrite Nat.add_0_r in Hm. now rewrite Hm.
  - destruct (mode_at post sweep i); [| reflexivity].
    rewrite (IH (S i) j); [reflexivity | lia |].
    now replace (S i + j)%nat with (i + S j)%nat by lia.
Qed.

Lemma returned_modes_read (s : State) : returned_modes s = modes_at s.
Proof.
  unfold returned_modes. rewrite find_resonance_read. simpl.
  destruct (modes_at s) as [ms |]; [| reflexivity].
  now rewrite values_enumerate.
Qed.

(** C8: [find_resonance] pairs the i-th mode expression with the i-th Q
    expression by position alone.  When it returns, the Q list was at
    least as long as the mode list, and the dict holds at key [i] the first
    value of the i-th Q expression with the first value of the i-th mode
    expression; when the Q list is shorter than the mode list it raises
    [IndexError] and returns no dict, and the pass of the loop ends on
    that exception. *)
Theorem find_resonance_pairs_by_position (s : State) :
  (forall output : Dict.t Mode,
     snd (find_resonance s) = Ok output ->
     (List.length (eigen_mode_quantities (post_at s))
      <= List.length (eigen_q_quantities (post_at s)))%nat /\
     List.length output = List.length (eigen_mode_quantities (post_at s)) /\
     forall (i : nat) (mode_name : string),
       nth_error (eigen_mode_quantities (post_at s)) i = Some mode_name ->
       exists (q_name : string) (q f : float),
         nth_error (eigen_q_quantities (post_at s)) i = Some q_name /\
         list_getitem (data_real (post_at s) q_name (sweep_at s)) 0 = Ok q /\
         list_getitem (data_real (post_at s) mode_name (sweep_at s)) 0 = Ok f /\
         Dict.get output (Z.of_nat i) = Some (q, f)) /\
  ((List.length (eigen_q_quantities (post_at s))
    < List.length (eigen_mode_quantities (post_at s)))%nat ->
   snd (find_resonance s) = Raise IndexError /\
   loop_body s = Raise IndexError).
Proof.
  rewrite loop_body_read, find_resonance_read. cbn [snd]. unfold modes_at. split.
  - intros output H.
    destruct (read_modes _ _ _ _) as [ms |] eqn:Hr; [| discriminate].
    injection H as <-.
    apply read_modes_some in Hr. destruct Hr as [Hlen Hnth].
    assert (Hle : (List.length (eigen_mode_quantities (post_at s))
                   <= List.length (eigen_q_quantities (post_at s)))%nat).
    { destruct (Nat.le_gt_cases (List.length (eigen_mode_quantities (post_at s)))
                  (List.length (eigen_q_quantities (post_at s)))) as [Hle | Hgt];
        [exact Hle | exfalso].
      specialize (Hnth _ Hgt). simpl in Hnth.
      assert (Hq : nth_error (eigen_q_quantities (post_at s))
                     (List.length (eigen_q_quantities (post_at s))) = None)
        by (apply nth_error_None; lia).
      unfold mode_at in Hnth. rewrite Hq in Hnth.
      symmetry in Hnth. apply nth_error_None in Hnth. lia. }
    split; [exact Hle |]. split.
    { pose proof (len_enumerate ms 0) as E. unfold Dict.len in E.
      apply Nat2Z.inj in E. now rewrite E. }
    intros i mode_name Hi.
    assert (Hlt : (i < List.length (eigen_mode_quantities (post_at s)))%nat)
      by (apply nth_error_Some; congruence).
    specialize (Hnth i Hlt). simpl in Hnth.
    destruct (nth_error ms i) as [[q f] |] eqn:Hms.
    + apply mode_at_some in Hnth.
      destruct Hnth as (q_name & mode_name' & Hqn & Hmn & Hq & Hf).
      assert (mode_name' = mode_name) by congruence. subst mode_name'.
      exists q_name, q, f. rewrite get_enumerate_0. auto.
    + apply nth_error_None in Hms. lia.
  - intros Hlt. rewrite (read_modes_none _ _ _ 0 _ Hlt); [split; reflexivity |].
    unfold mode_at.
    assert (Hq : nth_error (eigen_q_quantities (post_at s))
                   (List.length (eigen_q_quantities (post_at s))) = None)
      by (apply nth_error_None; lia).
    simpl. now rewrite Hq.
Qed.

(** C10: a pass whose answer lists no mode finds an empty dict; the lookup
    of key [len(output) - 1 = -1] then raises [KeyError], and so does the
    loop.  A pass that completes has got at least one mode. *)
Theorem no_modes_raises_KeyError (s : State) :
  (eigen_mode_quantities (post_at s) = [] ->
   snd (find_resonance s) = Ok Dict.empty /\
   loop_body s = Raise KeyError /\
   (scanning s = true -> forall fuel, while_loop (S fuel) s = Raised KeyError)) /\
  (forall s' : State,
   loop_body s = Ok s' ->
   eigen_mode_quantities (post_at s) <> [] /\
   exists m ms, returned_modes s = Some (m :: ms)).
Proof.
  split.
  - intros Hnil.
    assert (Hm : modes_at s = Some []) by (unfold modes_at; now rewrite Hnil).
    assert (Hb : loop_body s = Raise KeyError) by (now rewrite loop_body_read, Hm).
    split; [now rewrite find_resonance_read, Hm |].
    split; [exact Hb |].
    intros Hs fuel. unfold scanning in Hs. cbn [while_loop]. now rewrite Hs, Hb.
  - intros s' H. rewrite loop_body_read in H. rewrite returned_modes_read.
    destruct (modes_at s) as [[| m ms] |] eqn:Hm; try discriminate.
    split; [| now exists m, ms].
    intros Hnil. unfold modes_at in Hm. rewrite Hnil in Hm. discriminate.
Qed.

(** C4: when a pass completes, the next minimum frequency is the
    frequency of the last mode the pass got (the first value of the last
    mode expression), divided by 1e9, whatever the Q of that mode; and the
    setup that the following pass creates carries that number, followed by
    the unit, as its [MinimumFrequency]. *)
Theorem next_minimum_is_last_frequency (s s' : State) :
  loop_body s = Ok s' ->
  exists (f : float) (mode_name : string) (setup : Setup),
    last_frequency s = Some f /\
    last (eigen_mode_quantities (post_at s)) "" = mode_name /\
    list_getitem (data_real (post_at s) mode_name (sweep_at s)) 0 = Ok f /\
    next_fmin s' = (f / 1e9)%float /\
    fst (find_resonance s') = setup :: project s' /\
    MinimumFrequency setup = str_float (f / 1e9)%float ++ " GHz".
Proof.
  intros H. rewrite loop_body_read in H.
  unfold last_frequency. rewrite returned_modes_read.
  destruct (modes_at s) as [[| m ms] |] eqn:Hm; try discriminate.
  injection H as <-.
  unfold modes_at in Hm. apply read_modes_some in Hm. destruct Hm as [Hlen Hnth].
  destruct (eigen_mode_quantities (post_at s)) as [| name names] eqn:Hnames;
    [discriminate |].
  assert (Hl : List.length ms = List.length names) by (simpl in Hlen; lia).
  specialize (Hnth (List.length ms)). simpl in Hnth.
  rewrite nth_error_last in Hnth.
  assert (Hat : mode_at (post_at s) (sweep_at s) (List.length ms) = Some (last ms m))
    by (apply Hnth; lia).
  apply mode_at_some in Hat.
  destruct Hat as (q_name & mode_name & _ & Hmn & _ & Hf).
  rewrite Hnames, Hl, nth_error_last in Hmn. injection Hmn as Hmn.
  exists (freq_of (last ms m)), mode_name, (make_setup (freq_of (last ms m) / 1e9) (setup_nr s + 1)).
  rewrite last_cons. repeat split; auto.
Qed.

(** *** Passes of the loop *)

Lemma while_loop_finished (fuel : nat) :
  forall s s' : State,
  while_loop fuel s = Finished s' ->
  exists k, (k <= fuel)%nat /\ passes k s = Some s' /\ scanning s' = false.
Proof.
  induction fuel as [| fuel IH]; intros s s' H; cbn [while_loop] in H;
    destruct (next_fmin s <? fmax)%float eqn:E; try discriminate.
  - injection H as <-. exists O. auto.
  - destruct (loop_body s) as [s1 |] eqn:B; [| discriminate].
    apply IH in H. destruct H as (k & Hk & Hp & Hs).
    exists (S k). split; [lia |]. split; [| exact Hs].
    cbn [passes]. unfold scanning. now rewrite E, B.
  - injection H as <-. exists O. split; [lia |]. auto.
Qed.

Lemma while_loop_running (fuel : nat) :
  forall s s' : State,
  while_loop fuel s = Running s' ->
  passes fuel s = Some s' /\ scanning s' = true.
Proof.
  induction fuel as [| fuel IH]; intros s s' H; cbn [while_loop] in H;
    destruct (next_fmin s <? fmax)%float eqn:E; try discriminate.
  - injection H as <-. auto.
  - destruct (loop_body s) as [s1 |] eqn:B; [| discriminate].
    apply IH in H. cbn [passes]. unfold scanning at 1. now rewrite E, B.
Qed.

Lemma passes_finished (k : nat) :
  forall (s s' : State) (fuel : nat),
  passes k s = Some s' -> scanning s' = false -> (k <= fuel)%nat ->
  while_loop fuel s = Finished s'.
Proof.
  induction k as [| k IH]; intros s s' fuel Hp Hs Hk; cbn [passes] in Hp.
  - injection Hp as <-. unfold scanning in Hs. destruct fuel; cbn [while_loop]; now rewrite Hs.
  - destruct (scanning s) eqn:E; [| discriminate].
    destruct (loop_body s) as [s1 |] eqn:B; [| discriminate].
    destruct fuel as [| fuel]; [lia |].
    unfold scanning in E. cbn [while_loop]. rewrite E, B.
    apply (IH s1 s' fuel); auto. lia.
Qed.

Lemma passes_running (k : nat) :
  forall s s' : State,
  passes k s = Some s' -> scanning s' = true -> while_loop k s = Running s'.
Proof.
  induction k as [| k IH]; intros s s' Hp Hs; cbn [passes] in Hp.
  - injection Hp as <-. unfold scanning in Hs. cbn [while_loop]. now rewrite Hs.
  - destruct (scanning s) eqn:E; [| discriminate].
    destruct (loop_body s) as [s1 |] eqn:B; [| discriminate].
    unfold scanning in E. cbn [while_loop]. rewrite E, B. now apply IH.
Qed.

Lemma passes_unfold (k : nat) (s : State) :
  passes (S k) s =
  if scanning s then
    match loop_body s with
    | Ok s' => passes k s'
    | Raise _ => None
    end
  else None.
Proof. reflexivity. Qed.

(** One more pass after [k] passes. *)
Lemma passes_succ (k : nat) :
  forall s : State,
  passes (S k) s =
  match passes k s with
  | Some s1 =>
      if scanning s1 then
        match loop_body s1 with
        | Ok s2 => Some s2
        | Raise _ => None
        end
      else None
  | None => None
  end.
Proof.
  induction k as [| k IH]; intros s.
  - cbn [passes]. destruct (scanning s); [| reflexivity].
    now destruct (loop_body s).
  - rewrite (passes_unfold (S k) s), (passes_unfold k s).
    destruct (scanning s); [| reflexivity].
    destruct (loop_body s) as [s1 |]; [| reflexivity].
    apply IH.
Qed.

(** *** The resonance dict *)

Lemma loop_body_dense (s s' : State) :
  dense (resonance s) -> loop_body s = Ok s' ->
  exists ms : list Mode,
    returned_modes s = Some ms /\
    resonance s' = enumerate 0 (Dict.values (resonance s) ++ filter physical ms)%list.
Proof.
  intros Hd H. rewrite loop_body_read in H. rewrite returned_modes_read.
  destruct (modes_at s) as [[| m ms] |]; try discriminate.
  injection H as <-. exists (m :: ms). split; [reflexivity |].
  unfold dense in Hd. remember (Dict.values (resonance s)) as rs eqn:Ers.
  change (keep_modes (m :: ms) (resonance s) (Dict.len (resonance s))
          = enumerate 0 (rs ++ filter physical (m :: ms))%list).
  rewrite Hd, len_enumerate. apply keep_modes_enumerate.
Qed.

Lemma dense_enumerate (ms : list Mode) : dense (enumerate 0 ms).
Proof. unfold dense. now rewrite values_enumerate. Qed.

Lemma passes_observed (k : nat) :
  forall s s' : State,
  dense (resonance s) -> passes k s = Some s' ->
  resonance s' =
  enumerate 0 (Dict.values (resonance s) ++ filter physical (observed k s))%list.
Proof.
  induction k as [| k IH]; intros s s' Hd Hp; cbn [passes observed] in *.
  - injection Hp as <-. cbn [filter]. now rewrite app_nil_r.
  - destruct (scanning s); [| discriminate].
    destruct (loop_body s) as [s1 |] eqn:B; [| discriminate].
    destruct (loop_body_dense s s1 Hd B) as (ms & Hr & Hres).
    rewrite Hr.
    rewrite (IH s1 s') by (rewrite ?Hres; auto using dense_enumerate).
    rewrite Hres, values_enumerate, filter_app. now rewrite <- app_assoc.
Qed.

Lemma physical_not_below (m : Mode) :
  physical m = true -> (q_of m <=? limit)%float = false.
Proof.
  unfold physical. intros H. apply ltb_rank in H. destruct H as (_ & _ & Hlt).
  destruct (q_of m <=? limit)%float eqn:E; [| reflexivity].
  apply leb_rank in E. lia.
Qed.

(** C3: whatever the solver answers, after [k] passes, the loop ended or
    not, the resonance dict holds, under the keys 0, 1, 2, ..., exactly
    the modes met during those passes whose Q is greater than the limit,
    in the order they were met.  So a mode is in the dict if and only if
    it was met with [Q > limit], and no mode of the dict has
    [Q <= limit]. *)
Theorem resonance_is_the_filtered_observation (fuel : nat) (s : State) :
  while_loop fuel initial = Finished s \/ while_loop fuel initial = Running s ->
  exists k : nat,
    (k <= fuel)%nat /\ passes k initial = Some s /\
    resonance s = enumerate 0 (filter physical (observed k initial)) /\
    Dict.values (resonance s)
    = filter (fun m => (limit <? q_of m)%float) (observed k initial) /\
    (forall m : Mode,
       In m (Dict.values (resonance s)) <->
       In m (observed k initial) /\ (limit <? q_of m)%float = true) /\
    (forall m : Mode,
       In m (Dict.values (resonance s)) -> (q_of m <=? limit)%float = false).
Proof.
  intros H.
  assert (Hk : exists k, (k <= fuel)%nat /\ passes k initial = Some s).
  { destruct H as [H | H].
    - apply while_loop_finished in H. destruct H as (k & Hk & Hp & _).
      exists k. auto.
    - apply while_loop_running in H. destruct H as (Hp & _).
      exists fuel. auto. }
  destruct Hk as (k & Hk & Hp).
  exists k. split; [exact Hk |]. split; [exact Hp |].
  pose proof (passes_observed k initial s (dense_enumerate []) Hp) as Hres.
  cbn [initial resonance Dict.values Dict.empty map app] in Hres.
  assert (Hv : Dict.values (resonance s) = filter physical (observed k initial))
    by (now rewrite Hres, values_enumerate).
  split; [exact Hres |]. split; [exact Hv |]. split.
  - intros m. rewrite Hv. apply filter_In.
  - intros m Hin. rewrite Hv in Hin. apply filter_In in Hin.
    apply physical_not_below. destruct Hin as [_ Hphys]. exact Hphys.
Qed.

Lemma format_frequencies_items (res : Dict.t Mode) (items : list (Z * Mode)) :
  (forall i m, In (i, m) items -> Dict.get res i = Some m) ->
  format_frequencies res (map fst items)
  = Ok (map (fun m => format_5 (freq_of m / 1e9)%float ++ " GHz") (map snd items)).
Proof.
  induction items as [| [i m] items IH]; intros Hget; cbn [map fst snd format_frequencies];
    [reflexivity |].
  unfold Dict.getitem. rewrite (Hget i m) by (left; reflexivity). cbn [bind].
  rewrite IH by (intros i' m' Hin; apply Hget; right; exact Hin).
  reflexivity.
Qed.

(** C9: when the loop has ended, the list comprehension gives one string
    for each mode of the resonance dict, in the order of the dict: the
    frequency of the mode divided by 1e9, formatted, with the unit after
    it.  The modes of the dict are the accepted modes. *)
Theorem resonance_frequencies_one_per_mode (fuel : nat) (s : State) :
  while_loop fuel initial = Finished s ->
  exists (k : nat) (strings : list string),
    passes k initial = Some s /\
    resonance_frequencies s = Ok strings /\
    strings = map (fun m => format_5 (freq_of m / 1e9)%float ++ " GHz")
                (Dict.values (resonance s)) /\
    Dict.values (resonance s) = filter physical (observed k initial) /\
    List.length strings = List.length (Dict.values (resonance s)) /\
    forall (i : nat) (m : Mode),
      nth_error (Dict.values (resonance s)) i = Some m ->
      nth_error strings i = Some (format_5 (freq_of m / 1e9)%float ++ " GHz").
Proof.
  intros H. apply while_loop_finished in H. destruct H as (k & Hk & Hp & _).
  pose proof (passes_observed k initial s (dense_enumerate []) Hp) as Hres.
  cbn [initial resonance Dict.values Dict.empty map app] in Hres.
  exists k. eexists. split; [exact Hp |]. split.
  - unfold resonance_frequencies, Dict.keys. apply format_frequencies_items.
    intros i m Hin. rewrite Hres in Hin |- *. now apply in_enumerate_get in Hin.
  - split; [reflexivity |]. split; [now rewrite Hres, values_enumerate |].
    split; [now rewrite length_map |].
    intros i m Hi.
    exact (map_nth_error (fun m => format_5 (freq_of m / 1e9)%float ++ " GHz") _ _ Hi).
Qed.

(** *** Progress of the loop *)

Lemma not_below (x y : float) :
  is_nan x = false -> is_nan y = false ->
  (x <? y)%float = false -> (y <=? x)%float = true.
Proof.
  intros Hx Hy Hlt. apply leb_rank. repeat split; auto.
  destruct (Z.le_gt_cases (rank y) (rank x)) as [Hle | Hgt]; [exact Hle |].
  assert (H : (x <? y)%float = true) by (apply ltb_rank; auto with zarith).
  congruence.
Qed.

Lemma equal_not_below (x y : float) :
  (x =? y)%float = true -> (x <? y)%float = false.
Proof.
  rewrite eqb_spec, ltb_spec. unfold SFeqb, SFltb.
  now destruct (SFcompare (Prim2SF x) (Prim2SF y)) as [[| |] |].
Qed.

Lemma loop_body_last (s : State) (f : float) :
  last_frequency s = Some f ->
  exists s' : State, loop_body s = Ok s' /\ next_fmin s' = (f / 1e9)%float.
Proof.
  unfold last_frequency. rewrite returned_modes_read, loop_body_read.
  destruct (modes_at s) as [[| m ms] |]; try discriminate.
  intros H. injection H as <-. eexists. split; reflexivity.
Qed.

Lemma passes_step (k : nat) (s s' : State) :
  passes k initial = Some s -> scanning s = true -> loop_body s = Ok s' ->
  passes (S k) initial = Some s'.
Proof. intros Hp Hs Hb. now rewrite passes_succ, Hp, Hs, Hb. Qed.

Lemma passes_succ_inv (k : nat) (s s' : State) :
  passes k initial = Some s -> passes (S k) initial = Some s' ->
  scanning s = true /\ loop_body s = Ok s'.
Proof.
  intros Hp Hp1. rewrite passes_succ, Hp in Hp1.
  destruct (scanning s); [| discriminate].
  destruct (loop_body s) as [s1 |]; [| discriminate].
  injection Hp1 as ->. auto.
Qed.

Lemma loop_body_project (s s' : State) :
  loop_body s = Ok s' ->
  project s' = make_setup (next_fmin s) (setup_nr s) :: project s.
Proof.
  rewrite loop_body_read.
  destruct (modes_at s) as [[| m ms] |]; try discriminate.
  intros H. now injection H as <-.
Qed.

Section Increasing.

(** Every pass that is made gets at least one mode, and the frequency of
    its last mode is a number; from one pass to the next that frequency
    increases strictly. *)
Hypothesis fmax_number : is_nan fmax = false.
Hypothesis passes_get_modes :
  forall k s, passes k initial = Some s -> scanning s = true ->
  exists f, last_frequency s = Some f /\ is_nan f = false.
Hypothesis frequencies_increase :
  forall k s s' f f',
  passes k initial = Some s -> passes (S k) initial = Some s' ->
  scanning s' = true ->
  last_frequency s = Some f -> last_frequency s' = Some f' ->
  (f <? f')%float = true.

(** The floats above [f] are at most [n]: the loop ends within [n]
    passes more. *)
Lemma ends_within (n : nat) :
  forall (k : nat) (s : State) (f : float),
  passes k initial = Some s -> scanning s = true ->
  last_frequency s = Some f -> is_nan f = false ->
  rank_bound - rank f < Z.of_nat n ->
  exists (k' : nat) (s' : State),
    passes k' initial = Some s' /\ scanning s' = false /\
    (fmax <=? next_fmin s')%float = true.
Proof.
  induction n as [| n IH]; intros k s f Hp Hs Hf Hnum Hn.
  - pose proof (rank_range f). lia.
  - destruct (loop_body_last s f Hf) as (s1 & Hb & Hnext).
    pose proof (passes_step k s s1 Hp Hs Hb) as Hp1.
    destruct (scanning s1) eqn:Hs1.
    + destruct (passes_get_modes (S k) s1 Hp1 Hs1) as (f1 & Hf1 & Hnum1).
      pose proof (frequencies_increase k s s1 f f1 Hp Hp1 Hs1 Hf Hf1) as Hlt.
      apply ltb_rank in Hlt. destruct Hlt as (_ & _ & Hlt).
      apply (IH (S k) s1 f1); auto. lia.
    + exists (S k), s1. split; [exact Hp1 |]. split; [exact Hs1 |].
      apply not_below; auto.
      rewrite Hnext. now apply div_1e9_number.
Qed.

End Increasing.

(** C1: when every pass gets modes and the frequency of the last mode
    increases strictly from each pass to the next, the loop ends, and when
    it has ended [next_fmin >= fmax].  The bounds and the frequencies are
    numbers, not NaN. *)
Theorem increasing_frequencies_terminate :
  is_nan fmin = false -> is_nan fmax = false ->
  (forall k s, passes k initial = Some s -> scanning s = true ->
     exists f, last_frequency s = Some f /\ is_nan f = false) ->
  (forall k s s' f f',
     passes k initial = Some s -> passes (S k) initial = Some s' ->
     scanning s' = true ->
     last_frequency s = Some f -> last_frequency s' = Some f' ->
     (f <? f')%float = true) ->
  exists (fuel : nat) (s : State),
    while_loop fuel initial = Finished s /\
    (fmax <=? next_fmin s)%float = true.
Proof.
  intros Hmin Hmax Hget Hinc.
  assert (H : exists (k : nat) (s : State),
             passes k initial = Some s /\ scanning s = false /\
             (fmax <=? next_fmin s)%float = true).
  { destruct (scanning initial) eqn:Hs.
    - destruct (Hget O initial eq_refl Hs) as (f & Hf & Hnum).
      apply (ends_within Hmax Hget Hinc (S (Z.to_nat (rank_bound - rank f)))
               O initial f); auto.
      pose proof (rank_range f). lia.
    - exists O, initial. split; [reflexivity |]. split; [exact Hs |].
      apply not_below; auto. }
  destruct H as (k & s & Hp & Hs & Hge).
  exists k, s. split; [| exact Hge].
  apply (passes_finished k initial s k); auto.
Qed.

(** C5, as the script has it: nothing is checked.  When [fmin == fmax]
    the loop condition is false at once: the loop ends without a pass,
    with no setup created and an empty resonance dict, for every
    [num_modes].  And every pass writes [num_modes], whatever its value,
    into [NumModes] of the setup it creates. *)
Theorem equal_bounds_finish_empty :
  (fmin =? fmax)%float = true ->
  (forall fuel : nat,
     while_loop fuel initial
     = Finished {| next_fmin := fmin; setup_nr := 1;
                   resonance := Dict.empty; project := [] |}) /\
  (forall s : State,
     exists setup : Setup,
       fst (find_resonance s) = setup :: project s /\
       NumModes setup = num_modes).
Proof.
  intros Heq. apply equal_not_below in Heq. split.
  - intros fuel. apply (passes_finished O initial initial fuel); auto.
    lia.
  - intros s. eexists. split; reflexivity.
Qed.

(** C6, as the script has it: there is no guard against a pass that does
    not advance.  When the bounds let the loop start and every pass gets a
    last frequency that, divided by 1e9, is not above the minimum frequency
    the pass started from, no pass raises anything and the loop never
    ends: whatever the number of passes allowed, it is still running, with
    a minimum frequency that is not above [fmin]. *)
Theorem no_progress_never_ends :
  (fmin <? fmax)%float = true ->
  (forall k s, passes k initial = Some s ->
     exists f, last_frequency s = Some f /\
               (f / 1e9 <=? next_fmin s)%float = true) ->
  forall fuel : nat,
  exists s : State,
    while_loop fuel initial = Running s /\
    (next_fmin s <=? fmin)%float = true.
Proof.
  intros Hstart Hstuck fuel.
  assert (H : exists s, passes fuel initial = Some s /\
                        (next_fmin s <=? fmin)%float = true).
  { induction fuel as [| k IH].
    - exists initial. split; [reflexivity |].
      exact (leb_refl_below fmin fmax Hstart).
    - destruct IH as (s & Hp & Hle).
      destruct (Hstuck k s Hp) as (f & Hf & Hno).
      destruct (loop_body_last s f Hf) as (s1 & Hb & Hnext).
      exists s1. split.
      + apply (passes_step k s s1 Hp); [| exact Hb].
        exact (leb_ltb_trans _ _ _ Hle Hstart).
      + rewrite Hnext. exact (leb_trans _ _ _ Hno Hle). }
  destruct H as (s & Hp & Hle). exists s. split; [| exact Hle].
  apply passes_running; [exact Hp |].
  exact (leb_ltb_trans _ _ _ Hle Hstart).
Qed.

(** *** The outcome of a pass *)

Lemma mode_at_none (post : Post) (sweep : string) (i : nat) :
  (i < List.length (eigen_mode_quantities post))%nat ->
  (mode_at post sweep i = None <-> lacking post sweep i).
Proof.
  intros Hi. unfold mode_at, lacking.
  destruct (nth_error (eigen_mode_quantities post) i) as [mode_name |] eqn:Hm;
    [| apply nth_error_None in Hm; lia].
  destruct (nth_error (eigen_q_quantities post) i) as [q_name |] eqn:Hq.
  - destruct (data_real post q_name sweep) as [| q qs] eqn:Dq.
    + split; [intros _ | reflexivity].
      right. left. exists q_name. auto.
    + destruct (data_real post mode_name sweep) as [| f fs] eqn:Df.
      * split; [intros _ | reflexivity].
        right. right. exists mode_name. auto.
      * split; [discriminate |].
        intros [E | [(n & E & D) | (n & E & D)]]; try discriminate;
          injection E as <-; congruence.
  - split; [intros _; left; reflexivity | reflexivity].
Qed.

Lemma read_modes_none_inv (post : Post) (sweep : string) (n : nat) :
  forall i : nat,
  read_modes post sweep i n = None ->
  exists j, (j < n)%nat /\ mode_at post sweep (i + j) = None.
Proof.
  induction n as [| n IH]; intros i H; simpl in H; [discriminate |].
  destruct (mode_at post sweep i) as [m |] eqn:Hm.
  - destruct (read_modes post sweep (S i) n) as [ms |] eqn:Hr; [discriminate |].
    destruct (IH (S i) Hr) as (j & Hj & Hnone).
    exists (S j). split; [lia |].
    now replace (i + S j)%nat with (S i + j)%nat by lia.
  - exists O. split; [lia |]. now rewrite Nat.add_0_r.
Qed.

(** X1: a pass ends in one of three ways, each with its cause.  It raises
    [IndexError] exactly when some position of the modes cannot be read; it
    raises [KeyError] exactly when the answer lists no mode; and it
    completes exactly when the answer lists a mode and every position can
    be read. *)
Theorem pass_outcome (s : State) :
  (loop_body s = Raise IndexError <->
   exists i, (i < List.length (eigen_mode_quantities (post_at s)))%nat /\
             lacking (post_at s) (sweep_at s) i) /\
  (loop_body s = Raise KeyError <-> eigen_mode_quantities (post_at s) = []) /\
  ((exists s', loop_body s = Ok s') <->
   eigen_mode_quantities (post_at s) <> [] /\
   forall i, (i < List.length (eigen_mode_quantities (post_at s)))%nat ->
             ~ lacking (post_at s) (sweep_at s) i).
Proof.
  rewrite loop_body_read. unfold modes_at.
  destruct (read_modes (post_at s) (sweep_at s) 0
              (List.length (eigen_mode_quantities (post_at s)))) as [ms |] eqn:Hr.
  - apply read_modes_some in Hr. destruct Hr as [Hlen Hnth].
    assert (Hread : forall i,
               (i < List.length (eigen_mode_quantities (post_at s)))%nat ->
               ~ lacking (post_at s) (sweep_at s) i).
    { intros i Hi Hlack. apply (mode_at_none _ _ _ Hi) in Hlack.
      rewrite (Hnth i Hi : mode_at _ _ i = _) in Hlack.
      apply nth_error_None in Hlack. lia. }
    destruct ms as [| m ms].
    + assert (Hnil : eigen_mode_quantities (post_at s) = [])
        by (destruct (eigen_mode_quantities (post_at s)); [reflexivity | discriminate]).
      split; [| split].
      * split; [discriminate |]. intros (i & Hi & _). rewrite Hnil in Hi. simpl in Hi. lia.
      * split; auto.
      * split; [intros (s' & E); discriminate | intros [Hne _]; contradiction].
    + assert (Hne : eigen_mode_quantities (post_at s) <> [])
        by (intros E; rewrite E in Hlen; discriminate).
      split; [| split].
      * split; [discriminate |]. intros (i & Hi & Hlack). now apply Hread in Hlack.
      * split; [discriminate | intros E; contradiction].
      * split; [auto | intros _; eexists; reflexivity].
  - destruct (read_modes_none_inv _ _ _ _ Hr) as (j & Hj & Hnone).
    simpl in Hnone. apply (mode_at_none _ _ _ Hj) in Hnone.
    split; [| split].
    + split; [intros _; exists j; auto | reflexivity].
    + split; [discriminate |]. intros E. rewrite E in Hj. simpl in Hj. lia.
    + split; [intros (s' & E); discriminate |].
      intros [_ Hread]. exfalso. exact (Hread j Hj Hnone).
Qed.

(** *** The resonance dict over the passes *)

Lemma enumerate_app {V : Type} (l1 l2 : list V) (a : Z) :
  enumerate a (l1 ++ l2)%list
  = (enumerate a l1 ++ enumerate (a + Z.of_nat (List.length l1)) l2)%list.
Proof.
  revert a. induction l1 as [| x l1 IH]; intros a.
  - cbn. now rewrite Z.add_0_r.
  - cbn [app enumerate List.length]. rewrite IH. do 3 f_equal. lia.
Qed.

Lemma keys_enumerate {V : Type} (l : list V) (a : Z) :
  Dict.keys (enumerate a l)
  = map (fun i => a + Z.of_nat i) (seq 0 (List.length l)).
Proof.
  revert a. induction l as [| x l IH]; intros a; [reflexivity |].
  cbn [enumerate Dict.keys map fst List.length seq].
  change (map fst (enumerate (a + 1) l)) with (Dict.keys (enumerate (a + 1) l)).
  rewrite IH, <- seq_shift, map_map. f_equal; [cbn; lia |].
  apply map_ext. intros i. lia.
Qed.

Lemma passes_add (k j : nat) :
  forall s : State,
  passes (k + j) s =
  match passes k s with
  | Some s1 => passes j s1
  | None => None
  end.
Proof.
  induction k as [| k IH]; intros s; [reflexivity |].
  change (S k + j)%nat with (S (k + j)). rewrite !passes_unfold.
  destruct (scanning s); [| reflexivity].
  destruct (loop_body s) as [s1 |]; [| reflexivity].
  apply IH.
Qed.

Lemma observed_add (k j : nat) :
  forall s s1 : State,
  passes k s = Some s1 ->
  observed (k + j) s = (observed k s ++ observed j s1)%list.
Proof.
  induction k as [| k IH]; intros s s1 Hp.
  - injection Hp as <-. reflexivity.
  - rewrite passes_unfold in Hp.
    change (S k + j)%nat with (S (k + j)). cbn [observed].
    destruct (scanning s); [| discriminate].
    rewrite returned_modes_read. rewrite loop_body_read in *.
    destruct (modes_at s) as [[| m ms] |]; try discriminate.
    now rewrite (IH _ s1 Hp), app_assoc.
Qed.

(** X3: the resonance dict only grows, at its end: what it holds after [k]
    passes is still there after [k + j] passes, at the same keys and in the
    same order; the modes added since come after, under the next keys, and
    each of them has [Q > limit].  Its keys are always 0, 1, 2, ... *)
Theorem resonance_only_grows (k j : nat) (s s' : State) :
  passes k initial = Some s -> passes (k + j) initial = Some s' ->
  Dict.keys (resonance s)
  = map Z.of_nat (seq 0 (List.length (resonance s))) /\
  exists added : list Mode,
    resonance s'
    = (resonance s ++ enumerate (Dict.len (resonance s)) added)%list /\
    (forall i m,
       Dict.get (resonance s) i = Some m -> Dict.get (resonance s') i = Some m) /\
    Forall (fun m => (limit <? q_of m)%float = true) added.
Proof.
  intros Hp Hp'.
  pose proof (passes_observed k initial s (dense_enumerate []) Hp) as Hres.
  pose proof (passes_observed (k + j) initial s' (dense_enumerate []) Hp') as Hres'.
  cbn [initial resonance Dict.values Dict.empty map app] in Hres, Hres'.
  rewrite passes_add, Hp in Hp'.
  rewrite (observed_add k j initial s Hp), filter_app, enumerate_app in Hres'.
  rewrite <- Hres in Hres'.
  split.
  - rewrite Hres, keys_enumerate.
    pose proof (len_enumerate (filter physical (observed k initial)) 0) as E.
    unfold Dict.len in E. apply Nat2Z.inj in E. rewrite E.
    apply map_ext. intros i. lia.
  - exists (filter physical (observed j s)). split; [| split].
    + rewrite Hres'. do 2 f_equal. rewrite Hres, len_enumerate. lia.
    + intros i m Hget. rewrite Hres'.
      clear - Hget. induction (resonance s) as [| [i' m'] d IH]; [discriminate |].
      cbn [Dict.get app] in *. destruct (i' =? i); [exact Hget | now apply IH].
    + apply Forall_forall. intros m Hin. apply filter_In in Hin.
      destruct Hin as [_ Hphys]. exact Hphys.
Qed.

(** X6: a mode is kept only if its Q is a number, and only if the limit is
    one: a Q that is NaN never passes [Q > limit], and with a limit that is
    NaN the resonance dict stays empty whatever the solver finds. *)
Theorem nan_is_never_kept (k : nat) (s : State) :
  passes k initial = Some s ->
  (forall m, In m (Dict.values (resonance s)) -> is_nan (q_of m) = false) /\
  (is_nan limit = true -> resonance s = []).
Proof.
  intros Hp.
  pose proof (passes_observed k initial s (dense_enumerate []) Hp) as Hres.
  cbn [initial resonance Dict.values Dict.empty map app] in Hres.
  split.
  - intros m Hin. rewrite Hres, values_enumerate in Hin.
    apply filter_In in Hin. destruct Hin as [_ Hphys].
    unfold physical in Hphys. apply ltb_rank in Hphys.
    destruct Hphys as (_ & Hnum & _). exact Hnum.
  - intros Hnan.
    assert (Hnone : forall ms : list Mode, filter physical ms = []).
    { induction ms as [| m ms IH]; [reflexivity |].
      cbn [filter]. destruct (physical m) eqn:Hphys; [| exact IH].
      unfold physical in Hphys. apply ltb_rank in Hphys.
      destruct Hphys as (Hnum & _). congruence. }
    now rewrite Hres, Hnone.
Qed.

(** *** The setups of the project *)

Lemma int_str_int (n : Z) : int_str (str_int n) = Some n.
Proof.
  unfold int_str, str_int. rewrite NilZero.isi.
  - cbn [option_map]. now rewrite DecimalZ.of_to.
  - destruct n as [| p | p]; try discriminate.
    intros E. injection E as E. now apply DecimalPos.Unsigned.to_uint_nonnil in E.
  - destruct n as [| p | p]; try discriminate.
    intros E. injection E as E. now apply DecimalPos.Unsigned.to_uint_nonnil in E.
Qed.

Lemma str_int_inj (n n' : Z) : str_int n = str_int n' -> n = n'.
Proof.
  intros E. pose proof (int_str_int n) as Hn. rewrite E, int_str_int in Hn.
  now injection Hn.
Qed.

Lemma append_inj (prefix a b : string) :
  (prefix ++ a)%string = (prefix ++ b)%string -> a = b.
Proof.
  induction prefix as [| c prefix IH]; intros E; [exact E |].
  injection E as E. now apply IH.
Qed.

Lemma NoDup_map_injective {A B : Type} (f : A -> B) (l : list A) :
  (forall a a', f a = f a' -> a = a') -> NoDup l -> NoDup (map f l).
Proof.
  intros Hinj Hl. induction Hl as [| a l Hnotin Hl IH]; [constructor |].
  cbn [map]. constructor; [| exact IH].
  intros Hin. apply in_map_iff in Hin. destruct Hin as (a' & E & Hin').
  apply Hinj in E. now subst a'.
Qed.

Lemma passes_last (k : nat) (s' : State) :
  passes (S k) initial = Some s' ->
  exists s : State,
    passes k initial = Some s /\ scanning s = true /\ loop_body s = Ok s'.
Proof.
  intros Hp. rewrite passes_succ in Hp.
  destruct (passes k initial) as [s |]; [| discriminate].
  exists s. split; [reflexivity |].
  destruct (scanning s); [| discriminate].
  destruct (loop_body s) as [s1 |]; [| discriminate].
  injection Hp as ->. auto.
Qed.

Lemma loop_body_setup_nr (s s' : State) :
  loop_body s = Ok s' -> setup_nr s' = setup_nr s + 1.
Proof.
  rewrite loop_body_read.
  destruct (modes_at s) as [[| m ms] |]; try discriminate.
  intros H. now injection H as <-.
Qed.

Lemma passes_setups (k : nat) :
  forall s : State,
  passes k initial = Some s ->
  setup_nr s = 1 + Z.of_nat k /\
  map setup_name (project s)
  = map (fun i => "em_setup" ++ str_int (Z.of_nat i))%string (rev (seq 1 k)) /\
  ((0 < k)%nat -> exists newer, project s = (newer ++ [make_setup fmin 1])%list).
Proof.
  induction k as [| k IH]; intros s Hp.
  - injection Hp as <-. repeat split. intros Hk. lia.
  - destruct (passes_last k s Hp) as (s0 & Hp0 & _ & Hbody).
    destruct (IH s0 Hp0) as (Hnr & Hnames & Hold).
    rewrite (loop_body_setup_nr s0 s Hbody), (loop_body_project s0 s Hbody).
    split; [lia |]. split.
    + rewrite seq_S, rev_unit. cbn [map setup_name make_setup].
      rewrite Hnames, Hnr. do 3 f_equal. lia.
    + intros _. destruct k as [| k].
      * injection Hp0 as <-. exists []. reflexivity.
      * destruct Hold as (newer & E); [lia |]. rewrite E.
        eexists (_ :: newer). reflexivity.
Qed.

(** X4: every pass creates one setup and numbers it: after [k] passes the
    project holds [k] setups, named [em_setup1] ... [em_setupk] from the
    oldest to the newest, so no two setups have the same name; the oldest
    asks for the minimum frequency [fmin], and the next setup will be
    number [k + 1]. *)
Theorem setups_are_numbered (k : nat) (s : State) :
  passes k initial = Some s ->
  setup_nr s = 1 + Z.of_nat k /\
  List.length (project s) = k /\
  map setup_name (project s)
  = map (fun i => "em_setup" ++ str_int (Z.of_nat i))%string (rev (seq 1 k)) /\
  NoDup (map setup_name (project s)) /\
  ((0 < k)%nat ->
   exists newer,
     project s = (newer ++ [make_setup fmin 1])%list /\
     MinimumFrequency (make_setup fmin 1) = (str_float fmin ++ " GHz")%string).
Proof.
  intros Hp. destruct (passes_setups k s Hp) as (Hnr & Hnames & Hold).
  split; [exact Hnr |]. split; [| split; [exact Hnames |]; split].
  - rewrite <- (length_map setup_name), Hnames, length_map, length_rev.
    apply length_seq.
  - rewrite Hnames. apply NoDup_map_injective.
    + intros i i' E. apply append_inj, str_int_inj in E. lia.
    + apply NoDup_rev, seq_NoDup.
  - intros Hk. destruct (Hold Hk) as (newer & E).
    exists newer. split; [exact E | reflexivity].
Qed.

(** *** Bounds that leave no range, and answers that are not numbers *)

Lemma no_range (x y : float) :
  is_nan x = true \/ is_nan y = true \/ (y <=? x)%float = true ->
  (x <? y)%float = false.
Proof.
  intros H. destruct (x <? y)%float eqn:E; [| reflexivity].
  apply ltb_rank in E. destruct E as (Hx & Hy & Hlt).
  destruct H as [H | [H | H]]; try congruence.
  apply leb_rank in H. destruct H as (_ & _ & Hle). lia.
Qed.

(** X5: the loop makes no pass when [fmin < fmax] is false, that is when
    [fmax <= fmin] or one of the two is NaN: it ends at once, with no setup
    created and the resonance dict empty.  When [fmin < fmax] it makes at
    least one pass: if it ends, at least one setup was created. *)
Theorem passes_need_a_range :
  (is_nan fmin = true \/ is_nan fmax = true \/ (fmax <=? fmin)%float = true ->
   forall fuel : nat,
     while_loop fuel initial
     = Finished {| next_fmin := fmin; setup_nr := 1;
                   resonance := Dict.empty; project := [] |}) /\
  ((fmin <? fmax)%float = true ->
   forall (fuel : nat) (s : State),
     while_loop fuel initial = Finished s ->
     exists k : nat,
       (1 <= k <= fuel)%nat /\ passes k initial = Some s /\
       List.length (project s) = k).
Proof.
  split.
  - intros H fuel. apply (passes_finished O initial initial fuel); auto.
    + exact (no_range fmin fmax H).
    + lia.
  - intros Hlt fuel s H. apply while_loop_finished in H.
    destruct H as (k & Hk & Hp & Hs).
    exists k. split; [| split; [exact Hp |]].
    + destruct k as [| k]; [| lia].
      injection Hp as <-. unfold scanning in Hs. cbn [initial next_fmin] in Hs.
      congruence.
    + destruct (passes_setups k s Hp) as (_ & Hnames & _).
      rewrite <- (length_map setup_name), Hnames, length_map, length_rev.
      apply length_seq.
Qed.

Lemma div_nan (x y : float) : is_nan x = true -> is_nan (x / y)%float = true.
Proof.
  intros Hx.
  pose proof (Prim2SF_nan x) as Ex. rewrite Hx in Ex.
  pose proof (Prim2SF_nan (x / y)%float) as E. rewrite div_spec in E.
  destruct (Prim2SF x); try discriminate.
  unfold SF64div, SFdiv in E. cbn [is_number] in E.
  now destruct (is_nan (x / y)%float).
Qed.

(** X7: a pass whose last mode has a frequency that is NaN is the last pass:
    it completes, the next minimum frequency is NaN, [NaN < fmax] is
    false, and the loop ends there without any exception. *)
Theorem nan_frequency_ends_the_loop (s : State) (f : float) :
  scanning s = true -> last_frequency s = Some f -> is_nan f = true ->
  exists s' : State,
    loop_body s = Ok s' /\
    is_nan (next_fmin s') = true /\
    forall fuel : nat, while_loop (S fuel) s = Finished s'.
Proof.
  intros Hs Hf Hnan.
  destruct (loop_body_last s f Hf) as (s' & Hbody & Hnext).
  assert (Hnan' : is_nan (next_fmin s') = true)
    by (rewrite Hnext; now apply div_nan).
  exists s'. split; [exact Hbody |]. split; [exact Hnan' |].
  intros fuel. unfold scanning in Hs. cbn [while_loop]. rewrite Hs, Hbody.
  apply (passes_finished O s' s' fuel); [reflexivity | | lia].
  apply no_range. left. exact Hnan'.
Qed.

End Script.

(** ** Two runs on the same answers *)

Lemma mode_at_same (p1 p2 : Post) (sweep : string) (i : nat) :
  same_answers p1 p2 -> mode_at p1 sweep i = mode_at p2 sweep i.
Proof.
  intros (Hq & Hm & Hd). unfold mode_at. rewrite Hq, Hm.
  destruct (nth_error (eigen_q_quantities p2) i) as [q_name |]; [| reflexivity].
  destruct (nth_error (eigen_mode_quantities p2) i) as [mode_name |]; [| reflexivity].
  now rewrite !Hd.
Qed.

Lemma read_modes_same (p1 p2 : Post) (sweep : string) (n : nat) :
  same_answers p1 p2 ->
  forall i : nat, read_modes p1 sweep i n = read_modes p2 sweep i n.
Proof.
  intros Hsame. induction n as [| n IH]; intros i; simpl; [reflexivity |].
  now rewrite (mode_at_same p1 p2 sweep i Hsame), IH.
Qed.

Lemma loop_body_same (h1 h2 : Hfss) (num_modes : Z) (limit : float)
    (str_float : float -> string) :
  (forall project, same_answers (h1 project) (h2 project)) ->
  forall s : State,
  loop_body h1 num_modes limit str_float s = loop_body h2 num_modes limit str_float s.
Proof.
  intros Hsame s. rewrite !loop_body_read.
  assert (E : modes_at h1 num_modes str_float s = modes_at h2 num_modes str_float s).
  { unfold modes_at, post_at.
    destruct (Hsame (make_setup num_modes str_float (next_fmin s) (setup_nr s)
                       :: project s)) as (Hq & Hm & Hd).
    rewrite Hm. apply read_modes_same. repeat split; assumption. }
  now rewrite E.
Qed.

(** C7: two runs from the initial state on solvers that give the same
    answers to the same requests have the same outcome at every number of
    passes: the same resonance dict, with the same modes in the same order,
    the same minimum frequency, the same setups, or the same exception. *)
Theorem same_answers_same_run (h1 h2 : Hfss) (num_modes : Z)
    (fmin fmax limit : float) (str_float : float -> string) :
  (forall project, same_answers (h1 project) (h2 project)) ->
  forall fuel : nat,
  while_loop h1 num_modes fmax limit str_float fuel (initial fmin)
  = while_loop h2 num_modes fmax limit str_float fuel (initial fmin).
Proof.
  intros Hsame fuel. generalize (initial fmin) as s.
  induction fuel as [| fuel IH]; intros s; cbn [while_loop]; [reflexivity |].
  rewrite (loop_body_same h1 h2 num_modes limit str_float Hsame s).
  destruct (next_fmin s <? fmax)%float; [| reflexivity].
  destruct (loop_body h2 num_modes limit str_float s) as [s' |]; [| reflexivity].
  apply IH.
Qed.

Lemma same_answers_same_run_witness :
  while_loop (fun _ => six_modes) 6 2 10 no_str 3 (initial 1)
  = while_loop (fun project => match project with [] => six_modes | _ => six_modes end)
      6 2 10 no_str 3 (initial 1).
Proof.
  apply (same_answers_same_run (fun _ => six_modes)
           (fun project => match project with [] => six_modes | _ => six_modes end)).
  intros project. destruct project; repeat split.
Defined.

(** ** The run of the specification's scenario *)

(** C2: with [fmin = 1], [fmax = 2], [num_modes = 6], [limit = 10],
    when the first call of [find_resonance] gets six modes at 1.1, 1.3,
    1.5, 1.7, 1.9, 2.1 GHz with Q = 5, 12, 8, 15, 20, 3, the loop ends
    after that one pass; the resonance dict holds the modes at 1.3, 1.7
    and 1.9 GHz in this order, and the next minimum frequency is 2.1. *)
Theorem six_modes_scenario (hfss : Hfss) (str_float : float -> string) :
  returned_modes hfss 6 str_float (initial 1)
  = Some [(5%float, 1.1e9%float); (12%float, 1.3e9%float); (8%float, 1.5e9%float);
          (15%float, 1.7e9%float); (20%float, 1.9e9%float); (3%float, 2.1e9%float)] ->
  passes hfss 6 2 10 str_float 1 (initial 1)
  = Some {| next_fmin := 2.1;
            setup_nr := 2;
            resonance := [(0, (12%float, 1.3e9%float)); (1, (15%float, 1.7e9%float));
                          (2, (20%float, 1.9e9%float))];
            project := [make_setup 6 str_float 1 1] |} /\
  (forall fuel : nat,
     (1 <= fuel)%nat ->
     exists s : State,
       while_loop hfss 6 2 10 str_float fuel (initial 1) = Finished s /\
       Dict.values (resonance s)
       = [(12%float, 1.3e9%float); (15%float, 1.7e9%float); (20%float, 1.9e9%float)] /\
       map (fun m => (freq_of m / 1e9)%float) (Dict.values (resonance s))
       = [1.3%float; 1.7%float; 1.9%float] /\
       next_fmin s = 2.1%float /\
       (2 <=? next_fmin s)%float = true /\
       List.length (project s) = 1%nat).
Proof.
  intros Hfirst. rewrite returned_modes_read in Hfirst.
  assert (Hp : passes hfss 6 2 10 str_float 1 (initial 1)
               = Some {| next_fmin := 2.1;
                         setup_nr := 2;
                         resonance := [(0, (12%float, 1.3e9%float));
                                       (1, (15%float, 1.7e9%float));
                                       (2, (20%float, 1.9e9%float))];
                         project := [make_setup 6 str_float 1 1] |}).
  { rewrite passes_unfold, loop_body_read, Hfirst. reflexivity. }
  split; [exact Hp |].
  intros fuel Hfuel. eexists. split.
  - apply (passes_finished hfss 6 2 10 str_float 1 _ _ fuel Hp); [| exact Hfuel].
    reflexivity.
  - repeat split.
Qed.

Lemma six_modes_scenario_witness :
  returned_modes (fun _ => six_modes) 6 no_str (initial 1)
  = Some [(5%float, 1.1e9%float); (12%float, 1.3e9%float); (8%float, 1.5e9%float);
          (15%float, 1.7e9%float); (20%float, 1.9e9%float); (3%float, 2.1e9%float)] /\
  passes (fun _ => six_modes) 6 2 10 no_str 1 (initial 1) = Some after_six_modes.
Proof.
  split; [reflexivity |].
  exact (proj1 (six_modes_scenario (fun _ => six_modes) no_str eq_refl)).
Defined.

(** ** Concrete runs *)

Lemma resonance_is_the_filtered_observation_witness :
  while_loop (fun _ => six_modes) 6 2 10 no_str 1 (initial 1) = Finished after_six_modes /\
  exists k : nat,
    (k <= 1)%nat /\
    passes (fun _ => six_modes) 6 2 10 no_str k (initial 1) = Some after_six_modes /\
    resonance after_six_modes
    = enumerate 0 (filter (physical 10)
                     (observed (fun _ => six_modes) 6 2 10 no_str k (initial 1))) /\
    Dict.values (resonance after_six_modes)
    = filter (fun m => (10 <? q_of m)%float)
        (observed (fun _ => six_modes) 6 2 10 no_str k (initial 1)) /\
    (forall m : Mode,
       In m (Dict.values (resonance after_six_modes)) <->
       In m (observed (fun _ => six_modes) 6 2 10 no_str k (initial 1)) /\
       (10 <? q_of m)%float = true) /\
    (forall m : Mode,
       In m (Dict.values (resonance after_six_modes)) -> (q_of m <=? 10)%float = false).
Proof.
  split; [vm_compute; reflexivity |].
  apply (resonance_is_the_filtered_observation (fun _ => six_modes) 6 1 2 10 no_str 1).
  left. vm_compute. reflexivity.
Defined.

Lemma next_minimum_is_last_frequency_witness :
  loop_body (fun _ => six_modes) 6 10 no_str (initial 1) = Ok after_six_modes /\
  exists (f : float) (mode_name : string) (setup : Setup),
    last_frequency (fun _ => six_modes) 6 no_str (initial 1) = Some f /\
    last (eigen_mode_quantities (post_at (fun _ => six_modes) 6 no_str (initial 1))) ""
    = mode_name /\
    list_getitem (data_real (post_at (fun _ => six_modes) 6 no_str (initial 1)) mode_name
                    (sweep_at 6 no_str (initial 1))) 0 = Ok f /\
    next_fmin after_six_modes = (f / 1e9)%float /\
    fst (find_resonance (fun _ => six_modes) 6 no_str after_six_modes)
    = setup :: project after_six_modes /\
    MinimumFrequency setup = no_str (f / 1e9)%float ++ " GHz".
Proof.
  split; [vm_compute; reflexivity |].
  apply (next_minimum_is_last_frequency (fun _ => six_modes) 6 10 no_str (initial 1)).
  vm_compute. reflexivity.
Defined.

Lemma find_resonance_pairs_by_position_witness :
  ((List.length (eigen_q_quantities (post_at (fun _ => short_q) 6 no_str (initial 1)))
    < List.length (eigen_mode_quantities (post_at (fun _ => short_q) 6 no_str (initial 1))))%nat /\
   snd (find_resonance (fun _ => short_q) 6 no_str (initial 1)) = Raise IndexError /\
   loop_body (fun _ => short_q) 6 10 no_str (initial 1) = Raise IndexError) /\
  (snd (find_resonance (fun _ => six_modes) 6 no_str (initial 1))
   = Ok [(0, (5%float, 1.1e9%float)); (1, (12%float, 1.3e9%float));
         (2, (8%float, 1.5e9%float)); (3, (15%float, 1.7e9%float));
         (4, (20%float, 1.9e9%float)); (5, (3%float, 2.1e9%float))] /\
   exists (q_name : string) (q f : float),
     nth_error (eigen_q_quantities (post_at (fun _ => six_modes) 6 no_str (initial 1))) 1
     = Some q_name /\
     list_getitem (data_real (post_at (fun _ => six_modes) 6 no_str (initial 1)) q_name
                     (sweep_at 6 no_str (initial 1))) 0 = Ok q /\
     list_getitem (data_real (post_at (fun _ => six_modes) 6 no_str (initial 1)) "Mode(2)"
                     (sweep_at 6 no_str (initial 1))) 0 = Ok f /\
     Dict.get [(0, (5%float, 1.1e9%float)); (1, (12%float, 1.3e9%float));
               (2, (8%float, 1.5e9%float)); (3, (15%float, 1.7e9%float));
               (4, (20%float, 1.9e9%float)); (5, (3%float, 2.1e9%float))] (Z.of_nat 1)
     = Some (q, f)).
Proof.
  split.
  - split; [vm_compute; lia |].
    apply (proj2 (find_resonance_pairs_by_position (fun _ => short_q) 6 10 no_str (initial 1))).
    vm_compute. lia.
  - split; [vm_compute; reflexivity |].
    destruct (proj1 (find_resonance_pairs_by_position (fun _ => six_modes) 6 10 no_str (initial 1))
                _ eq_refl) as (_ & _ & Hpairs).
    exact (Hpairs 1%nat "Mode(2)" eq_refl).
Defined.

Lemma no_modes_raises_KeyError_witness :
  eigen_mode_quantities (post_at (fun _ => no_modes) 6 no_str (initial 1)) = [] /\
  loop_body (fun _ => no_modes) 6 10 no_str (initial 1) = Raise KeyError /\
  while_loop (fun _ => no_modes) 6 2 10 no_str 1 (initial 1) = Raised KeyError.
Proof.
  split; [reflexivity |].
  destruct (proj1 (no_modes_raises_KeyError (fun _ => no_modes) 6 2 10 no_str (initial 1))
              eq_refl) as (_ & Hbody & Hloop).
  split; [exact Hbody | exact (Hloop eq_refl O)].
Defined.

Lemma resonance_frequencies_one_per_mode_witness :
  while_loop (fun _ => six_modes) 6 2 10 no_str 1 (initial 1) = Finished after_six_modes /\
  exists (k : nat) (strings : list string),
    passes (fun _ => six_modes) 6 2 10 no_str k (initial 1) = Some after_six_modes /\
    resonance_frequencies (fun _ => "f") after_six_modes = Ok strings /\
    strings = map (fun m => (fun _ : float => "f") (freq_of m / 1e9)%float ++ " GHz")
                (Dict.values (resonance after_six_modes)) /\
    Dict.values (resonance after_six_modes)
    = filter (physical 10) (observed (fun _ => six_modes) 6 2 10 no_str k (initial 1)) /\
    List.length strings = List.length (Dict.values (resonance after_six_modes)) /\
    forall (i : nat) (m : Mode),
      nth_error (Dict.values (resonance after_six_modes)) i = Some m ->
      nth_error strings i
      = Some ((fun _ : float => "f") (freq_of m / 1e9)%float ++ " GHz").
Proof.
  split; [vm_compute; reflexivity |].
  apply (resonance_frequencies_one_per_mode (fun _ => six_modes) 6 1 2 10 no_str
           (fun _ => "f") 1).
  vm_compute. reflexivity.
Defined.

(** C5: nothing rejects [num_modes = 0] with equal bounds, nor
    [num_modes = 21]: the first run ends at once with the empty dict, the
    second makes its pass with [NumModes = 21] and ends with three modes. *)
Lemma no_configuration_error :
  while_loop (fun _ => six_modes) 0 1 10 no_str 5 (initial 1)
  = Finished {| next_fmin := 1; setup_nr := 1; resonance := []; project := [] |} /\
  exists s : State,
    while_loop (fun _ => six_modes) 21 2 10 no_str 5 (initial 1) = Finished s /\
    map NumModes (project s) = [21] /\
    List.length (resonance s) = 3%nat.
Proof.
  split; [vm_compute; reflexivity |].
  eexists. split; [vm_compute; reflexivity |].
  split; reflexivity.
Defined.

Lemma equal_bounds_finish_empty_witness :
  (1 =? 1)%float = true /\
  (forall fuel : nat,
     while_loop (fun _ => six_modes) 0 1 10 no_str fuel (initial 1)
     = Finished {| next_fmin := 1; setup_nr := 1;
                   resonance := Dict.empty; project := [] |}) /\
  (forall s : State,
     exists setup : Setup,
       fst (find_resonance (fun _ => six_modes) 0 no_str s) = setup :: project s /\
       NumModes setup = 0).
Proof.
  split; [reflexivity |].
  apply (equal_bounds_finish_empty (fun _ => six_modes) 0 1 1 10 no_str).
  reflexivity.
Defined.

(** *** A run of two passes *)

Lemma two_steps_last (s : State) :
  last_frequency two_steps 6 no_str s
  = Some match project s with
         | [] => 1.5e9%float
         | _ :: _ => 2.5e9%float
         end.
Proof.
  unfold last_frequency, returned_modes, find_resonance.
  destruct (project s) as [| setup project]; reflexivity.
Qed.

Lemma two_steps_get_modes (k : nat) (s : State) :
  passes two_steps 6 2 10 no_str k (initial 1) = Some s ->
  scanning 2 s = true ->
  exists f, last_frequency two_steps 6 no_str s = Some f /\ is_nan f = false.
Proof.
  intros _ _. rewrite two_steps_last. eexists. split; [reflexivity |].
  destruct (project s); reflexivity.
Qed.

Lemma two_steps_increase (k : nat) (s s' : State) (f f' : float) :
  passes two_steps 6 2 10 no_str k (initial 1) = Some s ->
  passes two_steps 6 2 10 no_str (S k) (initial 1) = Some s' ->
  scanning 2 s' = true ->
  last_frequency two_steps 6 no_str s = Some f ->
  last_frequency two_steps 6 no_str s' = Some f' ->
  (f <? f')%float = true.
Proof.
  intros Hp Hp1 Hs1 Hf Hf1.
  destruct (passes_succ_inv _ _ _ _ _ _ _ _ _ Hp Hp1) as [_ Hbody].
  destruct (loop_body_last two_steps 6 10 no_str s f Hf) as (s1 & Hbody1 & Hnext).
  rewrite Hbody in Hbody1. injection Hbody1 as <-.
  rewrite two_steps_last in Hf, Hf1.
  rewrite (loop_body_project _ _ _ _ _ _ Hbody) in Hf1.
  injection Hf1 as <-.
  unfold scanning in Hs1. rewrite Hnext in Hs1.
  destruct (project s); injection Hf as <-; [reflexivity |].
  vm_compute in Hs1. discriminate.
Qed.

Lemma increasing_frequencies_terminate_witness :
  exists (fuel : nat) (s : State),
    while_loop two_steps 6 2 10 no_str fuel (initial 1) = Finished s /\
    (2 <=? next_fmin s)%float = true.
Proof.
  apply (increasing_frequencies_terminate two_steps 6 1 2 10 no_str).
  - reflexivity.
  - reflexivity.
  - exact two_steps_get_modes.
  - exact two_steps_increase.
Defined.

(** *** A run that does not advance *)

Lemma stuck_last (s : State) :
  last_frequency stuck 6 no_str s = Some 0.5e9%float.
Proof. reflexivity. Qed.

Lemma stuck_next_fmin (k : nat) (s : State) :
  passes stuck 6 2 10 no_str k (initial 1) = Some s ->
  next_fmin s = 1%float \/ next_fmin s = 0.5%float.
Proof.
  destruct k as [| k]; intros Hp.
  - injection Hp as <-. left. reflexivity.
  - rewrite passes_succ in Hp.
    destruct (passes stuck 6 2 10 no_str k (initial 1)) as [s0 |]; [| discriminate].
    destruct (scanning 2 s0); [| discriminate].
    destruct (loop_body_last stuck 6 10 no_str s0 _ (stuck_last s0)) as (s1 & Hbody & Hnext).
    rewrite Hbody in Hp. injection Hp as <-. right. exact Hnext.
Qed.

Lemma stuck_no_progress (k : nat) (s : State) :
  passes stuck 6 2 10 no_str k (initial 1) = Some s ->
  exists f, last_frequency stuck 6 no_str s = Some f /\
            (f / 1e9 <=? next_fmin s)%float = true.
Proof.
  intros Hp. exists 0.5e9%float. split; [apply stuck_last |].
  destruct (stuck_next_fmin k s Hp) as [E | E]; rewrite E; reflexivity.
Qed.

Lemma no_progress_never_ends_witness :
  exists s : State,
    while_loop stuck 6 2 10 no_str 1000 (initial 1) = Running s /\
    (next_fmin s <=? 1)%float = true.
Proof.
  apply (no_progress_never_ends stuck 6 1 2 10 no_str).
  - reflexivity.
  - exact stuck_no_progress.
Defined.

(** C6: the second and the third pass of this run start from 0.5 GHz and
    get a last mode at 0.5 GHz; no exception is raised, and after three
    passes the loop is still running from 0.5 GHz. *)
Lemma no_progress_is_not_raised :
  exists s1 s2 s3 : State,
    loop_body stuck 6 10 no_str (initial 1) = Ok s1 /\
    loop_body stuck 6 10 no_str s1 = Ok s2 /\
    loop_body stuck 6 10 no_str s2 = Ok s3 /\
    next_fmin s1 = 0.5%float /\
    last_frequency stuck 6 no_str s1 = Some 0.5e9%float /\
    next_fmin s2 = 0.5%float /\
    last_frequency stuck 6 no_str s2 = Some 0.5e9%float /\
    next_fmin s3 = 0.5%float /\
    while_loop stuck 6 2 10 no_str 3 (initial 1) = Running s3.
Proof.
  do 3 eexists.
  split; [vm_compute; reflexivity |].
  split; [vm_compute; reflexivity |].
  split; [vm_compute; reflexivity |].
  repeat split.
Defined.

(** ** What the loop reads of the answers *)

Lemma mode_at_first_values (p1 p2 : Post) (sweep : string) (i : nat) :
  same_first_values p1 p2 sweep ->
  (i < List.length (eigen_mode_quantities p1))%nat ->
  mode_at p1 sweep i = mode_at p2 sweep i.
Proof.
  intros (Hm & Hq & Hd) Hi. unfold mode_at. rewrite <- Hm.
  assert (Eq : nth_error (eigen_q_quantities p1) i = nth_error (eigen_q_quantities p2) i).
  { pose proof (nth_error_firstn (List.length (eigen_mode_quantities p1))
                  (eigen_q_quantities p1) i) as E1.
    pose proof (nth_error_firstn (List.length (eigen_mode_quantities p1))
                  (eigen_q_quantities p2) i) as E2.
    apply Nat.ltb_lt in Hi. rewrite Hi in E1, E2. congruence. }
  rewrite <- Eq.
  destruct (nth_error (eigen_q_quantities p1) i) as [q_name |] eqn:Hqn; [| reflexivity].
  destruct (nth_error (eigen_mode_quantities p1) i) as [mode_name |] eqn:Hmn;
    [| reflexivity].
  assert (Dq : hd_error (data_real p1 q_name sweep) = hd_error (data_real p2 q_name sweep)).
  { apply Hd. right.
    apply nth_error_In with (n := i). rewrite nth_error_firstn.
    apply Nat.ltb_lt in Hi. now rewrite Hi. }
  assert (Dm : hd_error (data_real p1 mode_name sweep)
               = hd_error (data_real p2 mode_name sweep)).
  { apply Hd. left. now apply nth_error_In with (n := i). }
  destruct (data_real p1 q_name sweep), (data_real p2 q_name sweep); try discriminate;
    [reflexivity |].
  injection Dq as <-.
  destruct (data_real p1 mode_name sweep), (data_real p2 mode_name sweep);
    try discriminate; [reflexivity |].
  now injection Dm as <-.
Qed.

Lemma read_modes_ext (p1 p2 : Post) (sweep : string) (n : nat) :
  forall i : nat,
  (forall j, (j < n)%nat -> mode_at p1 sweep (i + j) = mode_at p2 sweep (i + j)) ->
  read_modes p1 sweep i n = read_modes p2 sweep i n.
Proof.
  induction n as [| n IH]; intros i Hext; simpl; [reflexivity |].
  pose proof (Hext O ltac:(lia)) as E0. rewrite Nat.add_0_r in E0. rewrite E0.
  rewrite (IH (S i)); [reflexivity |].
  intros j Hj. replace (S i + j)%nat with (i + S j)%nat by lia. apply Hext. lia.
Qed.

(** X2: the loop reads of an answer only the mode expressions, as many Q
    expressions, and the first value of the series of each for the sweep
    of the pass.  Two solvers whose answers agree on these, at every pass,
    give the same run: further values of a series, further Q expressions
    and the series of other sweeps have no effect. *)
Theorem only_first_values_are_read (h1 h2 : Hfss) (num_modes : Z)
    (fmin fmax limit : float) (str_float : float -> string) :
  (forall s : State,
     same_first_values (post_at h1 num_modes str_float s)
       (post_at h2 num_modes str_float s) (sweep_at num_modes str_float s)) ->
  forall fuel : nat,
  while_loop h1 num_modes fmax limit str_float fuel (initial fmin)
  = while_loop h2 num_modes fmax limit str_float fuel (initial fmin).
Proof.
  intros Hsame fuel.
  assert (Hbody : forall s,
             loop_body h1 num_modes limit str_float s
             = loop_body h2 num_modes limit str_float s).
  { intros s. rewrite !loop_body_read.
    assert (E : modes_at h1 num_modes str_float s = modes_at h2 num_modes str_float s).
    { unfold modes_at. destruct (Hsame s) as (Hm & _). rewrite <- Hm.
      apply read_modes_ext. intros j Hj.
      apply mode_at_first_values; [apply Hsame | exact Hj]. }
    now rewrite E. }
  generalize (initial fmin) as s.
  induction fuel as [| fuel IH]; intros s; cbn [while_loop]; [reflexivity |].
  rewrite Hbody.
  destruct (next_fmin s <? fmax)%float; [| reflexivity].
  destruct (loop_body h2 num_modes limit str_float s) as [s' |]; [| reflexivity].
  apply IH.
Qed.

Lemma six_modes_padded_first_values (s : State) :
  same_first_values (post_at (fun _ => six_modes) 6 no_str s)
    (post_at six_modes_padded 6 no_str s) (sweep_at 6 no_str s).
Proof.
  unfold post_at, sweep_at, six_modes_padded, same_first_values.
  cbn [eigen_mode_quantities eigen_q_quantities data_real].
  split; [reflexivity |]. split; [reflexivity |].
  intros e _. rewrite String.eqb_refl.
  now destruct (data_real six_modes e _).
Qed.

Lemma only_first_values_are_read_witness :
  while_loop (fun _ => six_modes) 6 2 10 no_str 3 (initial 1)
  = while_loop six_modes_padded 6 2 10 no_str 3 (initial 1).
Proof.
  apply (only_first_values_are_read (fun _ => six_modes) six_modes_padded).
  exact six_modes_padded_first_values.
Defined.

(** ** Runs for the properties of the passes *)

Lemma resonance_only_grows_witness :
  exists s s' : State,
    passes two_steps 6 3 10 no_str 2 (initial 1) = Some s /\
    passes two_steps 6 3 10 no_str (2 + 1) (initial 1) = Some s' /\
    resonance s = [(0, (20%float, 2.5e9%float))] /\
    resonance s' = [(0, (20%float, 2.5e9%float)); (1, (20%float, 2.5e9%float))] /\
    exists added : list Mode,
      resonance s' = (resonance s ++ enumerate (Dict.len (resonance s)) added)%list.
Proof.
  do 2 eexists.
  split; [vm_compute; reflexivity |].
  split; [vm_compute; reflexivity |].
  split; [reflexivity |].
  split; [reflexivity |].
  destruct (resonance_only_grows two_steps 6 1 3 10 no_str 2 1 _ _ eq_refl eq_refl)
    as (_ & added & E & _).
  exists added. exact E.
Defined.

Lemma nan_is_never_kept_witness :
  exists s : State,
    passes (fun _ => six_modes) 6 2 nan no_str 1 (initial 1) = Some s /\
    is_nan nan = true /\
    resonance s = [].
Proof.
  eexists. split; [vm_compute; reflexivity |]. split; [reflexivity |].
  apply (proj2 (nan_is_never_kept (fun _ => six_modes) 6 1 2 nan no_str 1 _ eq_refl)).
  reflexivity.
Defined.

Lemma setups_are_numbered_witness :
  exists s : State,
    passes stuck 6 2 10 no_str 3 (initial 1) = Some s /\
    setup_nr s = 4 /\
    map setup_name (project s) = ["em_setup3"; "em_setup2"; "em_setup1"] /\
    NoDup (map setup_name (project s)).
Proof.
  eexists. split; [vm_compute; reflexivity |].
  destruct (setups_are_numbered stuck 6 1 2 10 no_str 3 _ eq_refl)
    as (Hnr & _ & Hnames & Hdup & _).
  split; [exact Hnr |]. split; [exact Hnames | exact Hdup].
Defined.

Lemma passes_need_a_range_witness :
  (forall fuel : nat,
     while_loop (fun _ => six_modes) 6 2 10 no_str fuel (initial 3)
     = Finished {| next_fmin := 3; setup_nr := 1;
                   resonance := Dict.empty; project := [] |}) /\
  exists k : nat,
    (1 <= k <= 5)%nat /\
    passes (fun _ => six_modes) 6 2 10 no_str k (initial 1) = Some after_six_modes /\
    List.length (project after_six_modes) = k.
Proof.
  split.
  - apply (proj1 (passes_need_a_range (fun _ => six_modes) 6 3 2 10 no_str)).
    right. right. reflexivity.
  - apply (proj2 (passes_need_a_range (fun _ => six_modes) 6 1 2 10 no_str) eq_refl 5%nat).
    vm_compute. reflexivity.
Defined.

Lemma nan_frequency_ends_the_loop_witness :
  exists s' : State,
    loop_body nan_mode 6 10 no_str (initial 1) = Ok s' /\
    is_nan (next_fmin s') = true /\
    forall fuel : nat,
      while_loop nan_mode 6 2 10 no_str (S fuel) (initial 1) = Finished s'.
Proof.
  apply (nan_frequency_ends_the_loop nan_mode 6 2 10 no_str (initial 1) nan);
    reflexivity.
Defined.

(** ** The deprecation warning of the package *)

Lemma tuple_le_lexicographic (a b : Init.version) :
  Init.tuple_le a b = true <->
  fst a < fst b \/ (fst a = fst b /\ snd a <= snd b).
Proof.
  unfold Init.tuple_le.
  destruct (Z.eqb_spec (fst a) (fst b)) as [E1 | N1]; cbn [negb].
  - destruct (Z.eqb_spec (snd a) (snd b)) as [E2 | N2]; cbn [negb].
    + split; [intros _; right; lia | reflexivity].
    + rewrite Z.leb_le. lia.
  - rewrite Z.leb_le. lia.
Qed.

(** X8: [deprecation_warning] warns for the versions up to 3.7 and for no
    other.  For a version below 3, or 3.x with x <= 7, when the filters
    show the warning, exactly one line is printed, the category and the
    message that names the version, and the function returns; for a major
    version above 3, or 3.x with x >= 8, nothing is printed and nothing is
    raised whatever the filters say. *)
Theorem versions_up_to_3_7_are_warned (H : Type)
    (call_existing : H -> string -> string -> Init.runtime H -> Init.runtime H)
    (major minor : Z) (r : Init.runtime H) :
  (major < 3 \/ (major = 3 /\ minor <= 7) ->
   Init.deprecation_warning H call_existing (major, minor) Init.show r
   = Init.Returned
       {| Init.showwarning := Init.showwarning r;
          Init.stdout :=
            (Init.stdout r ++
             [("PendingDeprecationWarning: Current python version ("
               ++ (str_int major ++ "." ++ str_int minor)
               ++ ") is deprecated in PyAEDT. We encourage you to upgrade to the "
               ++ "latest version to benefit from the latest features and "
               ++ "security updates.")%string])%list |}) /\
  (3 < major \/ (major = 3 /\ 7 < minor) ->
   forall act : Init.action,
   Init.deprecation_warning H call_existing (major, minor) act r
   = Init.Returned
       {| Init.showwarning := Init.showwarning r; Init.stdout := Init.stdout r |}).
Proof.
  unfold Init.deprecation_warning. split.
  - intros Hold.
    assert (E : Init.tuple_le (major, minor) Init.LATEST_DEPRECATED_PYTHON_VERSION = true)
      by (apply tuple_le_lexicographic; exact Hold).
    rewrite E. reflexivity.
  - intros Hnew act.
    destruct (Init.tuple_le (major, minor) Init.LATEST_DEPRECATED_PYTHON_VERSION) eqn:E;
      [| reflexivity].
    apply tuple_le_lexicographic in E. cbn [fst snd Init.LATEST_DEPRECATED_PYTHON_VERSION] in E.
    lia.
Qed.

Lemma versions_up_to_3_7_are_warned_witness :
  Init.deprecation_warning unit (fun _ _ _ r => r) (3, 7) Init.show
    {| Init.showwarning := Init.existing tt; Init.stdout := [] |}
  = Init.Returned
      {| Init.showwarning := Init.existing tt;
         Init.stdout :=
           ["PendingDeprecationWarning: Current python version (3.7) is deprecated in PyAEDT. We encourage you to upgrade to the latest version to benefit from the latest features and security updates."] |} /\
  Init.deprecation_warning unit (fun _ _ _ r => r) (3, 8) Init.error
    {| Init.showwarning := Init.existing tt; Init.stdout := [] |}
  = Init.Returned {| Init.showwarning := Init.existing tt; Init.stdout := [] |}.
Proof.
  split.
  - apply (proj1 (versions_up_to_3_7_are_warned unit (fun _ _ _ r => r) 3 7
                    {| Init.showwarning := Init.existing tt; Init.stdout := [] |})).
    right. split; [reflexivity | lia].
  - apply (proj2 (versions_up_to_3_7_are_warned unit (fun _ _ _ r => r) 3 8
                    {| Init.showwarning := Init.existing tt; Init.stdout := [] |})).
    right. split; [reflexivity | lia].
Defined.

(** X9: [deprecation_warning] puts back the function it found in
    [warnings.showwarning] whenever it returns, and never calls it: its
    result is the same whatever that function does.  But it puts it back
    after the warning only: when the filters turn the warning of an old
    version into an exception, the exception leaves the function with
    [custom_show_warning] still installed, and nothing printed. *)
Theorem showwarning_is_put_back_on_return (H : Type)
    (call_existing : H -> string -> string -> Init.runtime H -> Init.runtime H)
    (v : Init.version) (act : Init.action) (r : Init.runtime H) :
  (forall r' : Init.runtime H,
     Init.deprecation_warning H call_existing v act r = Init.Returned r' ->
     Init.showwarning r' = Init.showwarning r) /\
  (forall call_other : H -> string -> string -> Init.runtime H -> Init.runtime H,
     Init.deprecation_warning H call_existing v act r
     = Init.deprecation_warning H call_other v act r) /\
  (forall category message r',
     Init.deprecation_warning H call_existing v act r = Init.Warned category message r' ->
     act = Init.error /\
     Init.tuple_le v Init.LATEST_DEPRECATED_PYTHON_VERSION = true /\
     category = "PendingDeprecationWarning" /\
     Init.showwarning r' = Init.custom_show_warning /\
     Init.stdout r' = Init.stdout r) /\
  (act = Init.error ->
   Init.tuple_le v Init.LATEST_DEPRECATED_PYTHON_VERSION = true ->
   exists message r',
     Init.deprecation_warning H call_existing v act r
     = Init.Warned "PendingDeprecationWarning" message r').
Proof.
  unfold Init.deprecation_warning.
  destruct (Init.tuple_le v Init.LATEST_DEPRECATED_PYTHON_VERSION) eqn:E.
  - destruct act; cbn.
    + repeat split; try discriminate.
      intros r' Hr. now injection Hr as <-.
    + repeat split; try discriminate.
      intros r' Hr. now injection Hr as <-.
    + split; [discriminate |]. split; [reflexivity |]. split.
      * intros category message r' Hr. injection Hr as <- <- <-. auto.
      * intros _ _. eauto.
  - split; [intros r' Hr; now injection Hr as <- |].
    split; [reflexivity |]. split; [discriminate | discriminate].
Qed.

Lemma showwarning_is_put_back_on_return_witness :
  exists message r',
    Init.deprecation_warning unit (fun _ _ _ r => r) (2, 7) Init.error
      {| Init.showwarning := Init.existing tt; Init.stdout := [] |}
    = Init.Warned "PendingDeprecationWarning" message r' /\
    Init.showwarning r' = Init.custom_show_warning.
Proof.
  destruct (showwarning_is_put_back_on_return unit (fun _ _ _ r => r) (2, 7) Init.error
              {| Init.showwarning := Init.existing tt; Init.stdout := [] |})
    as (_ & _ & Hwarned & Hraise).
  destruct (Hraise eq_refl eq_refl) as (message & r' & E).
  exists message, r'. split; [exact E |].
  destruct (Hwarned _ _ _ E) as (_ & _ & _ & Hhook & _). exact Hhook.
Defined.
